(** * The command resolution engine of [f-ts] ([src/main.ts])

    A shallow embedding of the TypeScript dispatcher: the command
    registry and [findCommand], the fuzzy scorer [fuzzyScore], the
    ranking [rankCommands], the interactive prompt [promptForCommand]
    and the top-level [main].

    Modelling conventions.
    - A JavaScript string is a [list ascii]: a sequence of code units,
      restricted to the Latin-1 range [0..255].  [toLowerCase] folds
      [A-Z] and the Latin-1 capitals; [\s] and [trim] recognise the
      Latin-1 members of the ECMAScript WhiteSpace and LineTerminator
      classes (TAB, LF, VT, FF, CR, SP, NBSP).
    - JavaScript numbers that hold scores and indices are [Z]; the
      sentinel [-1] is kept as in the source.
    - [String.prototype.localeCompare] belongs to the host, so the
      ranking takes it as a parameter.
    - Console output, the readline interface and the answers typed by
      the user are an explicit event trace and an explicit list of
      input lines. *)

From Stdlib Require Import ZArith Lia Bool Ascii String DecimalString.
From Stdlib Require Import List Sorted Permutation.
From Stdlib Require DecimalNat.
Import ListNotations.

Local Open Scope Z_scope.

(** ** Strings *)

Definition jsstring := list ascii.

Abbreviation lit := list_ascii_of_string.

Definition code (c : ascii) : Z := Z.of_N (N_of_ascii c).

Definition fromCode (n : Z) : ascii := ascii_of_N (Z.to_N n).

(** [\s] on one code unit. *)
Definition isWhitespace (c : ascii) : bool :=
  let n := code c in
  ((9 <=? n) && (n <=? 13)) || (n =? 32) || (n =? 160).

(** [String.prototype.toLowerCase] on one code unit. *)
Definition toLowerChar (c : ascii) : ascii :=
  let n := code c in
  if ((65 <=? n) && (n <=? 90))
     || ((192 <=? n) && (n <=? 222) && negb (n =? 215))
  then fromCode (n + 32)
  else c.

Definition toLowerCase (s : jsstring) : jsstring := map toLowerChar s.

(** [s.replace(/\s+/g, "")] *)
Definition removeWhitespace (s : jsstring) : jsstring :=
  filter (fun c => negb (isWhitespace c)) s.

Fixpoint trimStart (s : jsstring) : jsstring :=
  match s with
  | c :: r => if isWhitespace c then trimStart r else s
  | [] => []
  end.

(** [String.prototype.trim] *)
Definition trim (s : jsstring) : jsstring :=
  rev (trimStart (rev (trimStart s))).

(** [s.split(/\s+/)]: [cur] is the piece being read (reversed) and
    [inSep] tells that the previous code unit belonged to a separator. *)
Fixpoint splitAux (s : jsstring) (cur : jsstring) (inSep : bool)
  : list jsstring :=
  match s with
  | [] => [rev cur]
  | c :: r =>
      if isWhitespace c
      then if inSep then splitAux r [] true
           else rev cur :: splitAux r [] true
      else splitAux r (c :: cur) false
  end.

Definition splitWhitespace (s : jsstring) : list jsstring :=
  splitAux s [] false.

(** [parts.join(sep)] *)
Fixpoint join (sep : jsstring) (parts : list jsstring) : jsstring :=
  match parts with
  | [] => []
  | [p] => p
  | p :: rest => p ++ sep ++ join sep rest
  end.

Fixpoint indexOfAux (target : ascii) (s : jsstring) (i : Z) : Z :=
  match s with
  | [] => -1
  | x :: r => if Ascii.eqb x target then i else indexOfAux target r (i + 1)
  end.

(** [s.indexOf(target, position)] for a one-unit [target]; the start
    position is clamped to [0 .. s.length] as the language does. *)
Definition indexOf (s : jsstring) (target : ascii) (position : Z) : Z :=
  let len := Z.of_nat (length s) in
  let start := Z.min (Z.max position 0) len in
  indexOfAux target (skipn (Z.to_nat start) s) start.

(** ** The command registry *)

(** What a thrown value looks like to the handler of [main]:
    an [Error] with its [message], or any other value with the text
    [String(value)] gives for it. *)
Inductive Thrown :=
| ErrorObject (message : jsstring)
| OtherValue (text : jsstring).

Inductive Event :=
| Log (line : jsstring)                         (* console.log *)
| ErrLog (line : jsstring)                      (* console.error *)
| CreateInterface                               (* createInterface(...) *)
| Question (prompt : jsstring) (answer : jsstring) (* rl.question *)
| CloseInterface.                               (* rl.close() *)

(** A command's behaviour is opaque: what it prints, and whether it
    returns or throws. *)
Record RunResult := mkRunResult {
  runEvents : list Event;
  runThrown : option Thrown
}.

Record CommandDefinition := mkCommand {
  name : jsstring;
  description : jsstring;
  usage : option jsstring;
  aliases : option (list jsstring);
  run : list jsstring -> RunResult
}.

Definition jsstring_eqb (a b : jsstring) : bool :=
  if list_eq_dec ascii_dec a b then true else false.

Definition commandMatches (normalized : jsstring) (command : CommandDefinition)
  : bool :=
  if jsstring_eqb (name command) normalized then true
  else match aliases command with
       | None => false
       | Some al => existsb (fun alias => jsstring_eqb alias normalized) al
       end.

(** [findCommand]; the module-level registry [commands] it scans is an
    argument here. *)
Definition findCommand (commands : list CommandDefinition) (input : jsstring)
  : option CommandDefinition :=
  let normalized := toLowerCase input in
  find (commandMatches normalized) commands.

(** ** The matcher *)

Definition buildSearchText (command : CommandDefinition) : jsstring :=
  let aliasText :=
    match aliases command with
    | Some al => join (lit " ") al
    | None => []
    end in
  toLowerCase (name command ++ lit " " ++ aliasText ++ lit " "
               ++ description command).

(** The [for ... of] loop of [fuzzyScore], with its two counters. *)
Fixpoint fuzzyLoop (chars : jsstring) (candidate : jsstring)
  (score candidateIndex : Z) : Z :=
  match chars with
  | [] => score
  | char :: rest =>
      let target := toLowerChar char in
      let matchIndex := indexOf candidate target candidateIndex in
      if matchIndex =? -1 then -1
      else
        let score' :=
          if matchIndex =? candidateIndex then score + 2 else score + 1 in
        fuzzyLoop rest candidate score' (matchIndex + 1)
  end.

Definition normalizeQuery (query : jsstring) : jsstring :=
  removeWhitespace (toLowerCase query).

Definition fuzzyScore (query candidate : jsstring) : Z :=
  let normalizedQuery := normalizeQuery query in
  match normalizedQuery with
  | [] => -1
  | _ => fuzzyLoop normalizedQuery candidate 0 0
  end.

(** ** The resolver *)

(** One element of the array built by [rankCommands]. *)
Record Entry := mkEntry {
  command : CommandDefinition;
  score : Z
}.

(** The inner [for (const token of tokens)] loop: the running sum, or
    [-1] as soon as one token does not match. *)
Fixpoint sumTokens (tokens : list jsstring) (searchText : jsstring)
  (acc : Z) : Z :=
  match tokens with
  | [] => acc
  | token :: rest =>
      let tokenScore := fuzzyScore token searchText in
      if tokenScore <? 0 then -1
      else sumTokens rest searchText (acc + tokenScore)
  end.

Definition scoreCommand (tokens : list jsstring) (c : CommandDefinition)
  : Entry :=
  mkEntry c (sumTokens tokens (buildSearchText c) 0).

Definition tokenize (query : jsstring) : list jsstring :=
  filter (fun token => 0 <? Z.of_nat (length token))
         (splitWhitespace (toLowerCase query)).

(** [Array.prototype.sort(compare)]: the sort is stable, and an element
    [a] stays in front of [b] unless [compare(a, b) > 0]. *)
Section Sort.
Context {A : Type} (compare : A -> A -> Z).

Fixpoint insertBy (a : A) (sorted : list A) : list A :=
  match sorted with
  | [] => [a]
  | b :: rest =>
      if compare a b <=? 0 then a :: b :: rest
      else b :: insertBy a rest
  end.

Definition sortBy (l : list A) : list A := fold_right insertBy [] l.
End Sort.

Section Resolver.
(** The host's [String.prototype.localeCompare]. *)
Variable localeCompare : jsstring -> jsstring -> Z.

Definition compareEntries (a b : Entry) : Z :=
  if negb (score b =? score a) then score b - score a
  else localeCompare (name (command a)) (name (command b)).

Definition rankCommands (query : jsstring)
  (definitions : list CommandDefinition) : list Entry :=
  let tokens := tokenize query in
  match tokens with
  | [] => []
  | _ :: _ =>
      sortBy compareEntries
        (filter (fun entry => 0 <=? score entry)
           (map (scoreCommand tokens) definitions))
  end.

Definition suggestClosestCommand (commands : list CommandDefinition)
  (input : jsstring) : option CommandDefinition :=
  match rankCommands input commands with
  | best :: _ => Some (command best)
  | [] => None
  end.
End Resolver.

(** ** Console texts *)

Definition TOOL_NAME : jsstring := lit "f".
Definition VERSION : jsstring := lit "0.1.5".
Definition TAGLINE : jsstring := lit "Move faster".

Definition newline : jsstring := [fromCode 10].

(** Decimal rendering of a non-negative index inside a template. *)
Definition decimal (n : nat) : jsstring :=
  lit (DecimalString.NilEmpty.string_of_uint (Nat.to_uint n)).

(** [s.padEnd(width, " ")] *)
Definition padEnd (s : jsstring) (width : nat) : jsstring :=
  s ++ repeat (fromCode 32) (width - length s).

Definition printGeneralHelp (commands : list CommandDefinition)
  : list Event :=
  let nameWidth :=
    fold_left (fun width c => Nat.max width (length (name c))) commands 0%nat in
  [ Log (TOOL_NAME ++ lit " " ++ VERSION);
    Log (TAGLINE ++ newline);
    Log (lit "Usage:");
    Log (lit "  " ++ TOOL_NAME ++ lit " <command> [options]");
    Log (lit "  " ++ TOOL_NAME ++ lit " --help");
    Log (lit "  " ++ TOOL_NAME ++ lit " --version" ++ newline);
    Log (lit "Commands:") ]
  ++ map (fun c =>
            Log (lit "  " ++ padEnd (name c) nameWidth ++ lit "  "
                 ++ description c)) commands
  ++ [ Log (newline ++ lit "Run `" ++ TOOL_NAME
            ++ lit " <command> --help` for command details.") ].

Definition printCommandHelp (c : CommandDefinition) : list Event :=
  [ Log (TOOL_NAME ++ lit " " ++ VERSION);
    Log (name c ++ newline);
    Log (description c ++ newline);
    Log (lit "Usage:");
    Log (lit "  " ++ TOOL_NAME ++ lit " "
         ++ match usage c with Some u => u | None => name c end) ].

(** ** The interactive selector *)

Definition isDigit (c : ascii) : bool :=
  (48 <=? code c) && (code c <=? 57).

Fixpoint parseDigits (s : jsstring) (acc : Z) : Z :=
  match s with
  | c :: r => if isDigit c then parseDigits r (10 * acc + (code c - 48))
              else acc
  | [] => acc
  end.

Definition startsWithDigit (s : jsstring) : bool :=
  match s with
  | c :: _ => isDigit c
  | [] => false
  end.

(** [Number.parseInt(s, 10)]: leading white space, an optional sign and
    the longest run of decimal digits; [None] stands for [NaN]. *)
Definition parseInt (s : jsstring) : option Z :=
  let s1 := trimStart s in
  let '(negative, s2) :=
    match s1 with
    | c :: r => if code c =? 45 then (true, r)
                else if code c =? 43 then (false, r)
                else (false, s1)
    | [] => (false, s1)
    end in
  if startsWithDigit s2
  then Some (if negative then - parseDigits s2 0 else parseDigits s2 0)
  else None.

(** The places where [promptForCommand] waits for a line, and its two
    ways of returning. *)
Inductive SelectorState :=
| AwaitingQuery
| AwaitingSelection (suggestions : list Entry)
| Done (selection : CommandDefinition)
| Cancelled.

Definition searchPrompt : jsstring :=
  lit "Search command (Enter to cancel): ".
Definition selectPrompt : jsstring :=
  lit "Select command number (Enter to refine search): ".
Definition noMatchText : jsstring :=
  lit "No matching commands. Try again." ++ newline.
Definition invalidSelectionText : jsstring :=
  lit "Invalid selection. Try again." ++ newline.

Definition promptOf (st : SelectorState) : jsstring :=
  match st with
  | AwaitingSelection _ => selectPrompt
  | _ => searchPrompt
  end.

Fixpoint listMatches (index : nat) (suggestions : list Entry) : list Event :=
  match suggestions with
  | [] => []
  | entry :: rest =>
      Log (lit "  " ++ decimal (index + 1) ++ lit ". "
           ++ name (command entry) ++ lit "  "
           ++ description (command entry))
      :: listMatches (S index) rest
  end.

Section Selector.
Variable localeCompare : jsstring -> jsstring -> Z.
Variable definitions : list CommandDefinition.

(** One answered question of the [while (true)] loop: the code that
    runs from the answer to the next question or to the [return]. *)
Definition selectorStep (st : SelectorState) (answer : jsstring)
  : SelectorState * list Event :=
  match st with
  | AwaitingQuery =>
      let term := trim answer in
      match term with
      | [] => (Cancelled, [])
      | _ :: _ =>
          let ranked := rankCommands localeCompare term definitions in
          match ranked with
          | [] => (AwaitingQuery, [Log noMatchText])
          | [only] => (Done (command only), [])
          | _ :: _ :: _ =>
              let suggestions :=
                firstn (Nat.min 5 (length ranked)) ranked in
              (AwaitingSelection suggestions,
               [Log []; Log (lit "Matches:")]
               ++ listMatches 0 suggestions ++ [Log []])
          end
      end
  | AwaitingSelection suggestions =>
      let selectionRaw := trim answer in
      match selectionRaw with
      | [] => (AwaitingQuery, [])
      | _ :: _ =>
          match parseInt selectionRaw with
          | Some selection =>
              if (1 <=? selection)
                 && (selection <=? Z.of_nat (length suggestions))
              then match nth_error suggestions (Z.to_nat (selection - 1)) with
                   | Some entry => (Done (command entry), [])
                   | None => (Cancelled, [])
                   end
              else (AwaitingQuery, [Log invalidSelectionText])
          | None => (AwaitingQuery, [Log invalidSelectionText])
          end
      end
  | Done _ | Cancelled => (st, [])
  end.

(** The loop fed with the lines the user types; it stops at the first
    [return], or waits when the lines run out. *)
Fixpoint selectorLoop (st : SelectorState) (inputs : list jsstring)
  : SelectorState * list Event * list jsstring :=
  match st with
  | Done _ | Cancelled => (st, [], inputs)
  | AwaitingQuery | AwaitingSelection _ =>
      match inputs with
      | [] => (st, [], [])
      | answer :: rest =>
          let '(st', out) := selectorStep st answer in
          let '(final, outs, unread) := selectorLoop st' rest in
          (final, Question (promptOf st) answer :: out ++ outs, unread)
      end
  end.
End Selector.

Inductive PromptResult :=
| Resolved (selection : option CommandDefinition)
| StillWaiting (st : SelectorState).

Definition promptForCommand (localeCompare : jsstring -> jsstring -> Z)
  (definitions : list CommandDefinition) (inputs : list jsstring)
  : PromptResult * list Event * list jsstring :=
  match definitions with
  | [] => (Resolved None, [], inputs)
  | _ :: _ =>
      let header :=
        [Log (lit "Available commands:")]
        ++ map (fun c => Log (lit "  " ++ name c ++ lit "  " ++ description c))
               definitions
        ++ [Log (newline ++ lit "Type to filter commands. Press Enter to cancel."
                 ++ newline);
            CreateInterface] in
      let '(final, out, unread) :=
        selectorLoop localeCompare definitions AwaitingQuery inputs in
      match final with
      | Done c => (Resolved (Some c), header ++ out ++ [CloseInterface], unread)
      | Cancelled => (Resolved None, header ++ out ++ [CloseInterface], unread)
      | _ => (StillWaiting final, header ++ out, unread)
      end
  end.

(** ** The dispatcher *)

Record Environment := mkEnvironment {
  stdinIsTTY : bool;
  stdoutIsTTY : bool;
  typed : list jsstring          (* the lines the user will type *)
}.

(** How a piece of code ends: it returns, it throws, or it is still
    waiting for a line that never comes. *)
Inductive Completion :=
| Normal
| Throw (e : Thrown)
| Blocked (st : SelectorState).

Record Process := mkProcess {
  events : list Event;
  exitCode : option Z;           (* process.exitCode, [None] while unset *)
  completion : Completion
}.

Definition isHelpFlag (value : jsstring) : bool :=
  jsstring_eqb value (lit "--help") || jsstring_eqb value (lit "-h").

Definition isVersionFlag (value : jsstring) : bool :=
  jsstring_eqb value (lit "--version") || jsstring_eqb value (lit "-v").

Definition executeCommand (c : CommandDefinition) (args : list jsstring)
  (before : list Event) : Process :=
  let r := run c args in
  mkProcess (before ++ runEvents r) None
    match runThrown r with
    | Some e => Throw e
    | None => Normal
    end.

(** [error instanceof Error ? error.message : String(error)] *)
Definition errorText (e : Thrown) : jsstring :=
  match e with
  | ErrorObject message => message
  | OtherValue text => text
  end.

Section Dispatcher.
Variable localeCompare : jsstring -> jsstring -> Z.
Variable commands : list CommandDefinition.

Definition unknownCommand (target : jsstring) : Process :=
  mkProcess
    (ErrLog (lit "Unknown command: " ++ target)
     :: match suggestClosestCommand localeCompare commands target with
        | Some suggestion =>
            [ErrLog (lit "Did you mean " ++ [fromCode 34] ++ name suggestion
                     ++ [fromCode 34] ++ lit "?")]
        | None => []
        end)
    (Some 1) Normal.

(** The body of the [try] block of [main]. *)
Definition mainBody (env : Environment) (args : list jsstring) : Process :=
  match args with
  | [] =>
      if negb (stdinIsTTY env) || negb (stdoutIsTTY env)
      then mkProcess (printGeneralHelp commands) None Normal
      else
        let '(result, out, _) :=
          promptForCommand localeCompare commands (typed env) in
        match result with
        | StillWaiting st => mkProcess out None (Blocked st)
        | Resolved None => mkProcess out None Normal
        | Resolved (Some selection) => executeCommand selection [] out
        end
  | first :: others =>
      if (length args =? 1)%nat && isVersionFlag first
      then mkProcess [Log VERSION] None Normal
      else if (length args =? 1)%nat && isHelpFlag first
      then mkProcess (printGeneralHelp commands) None Normal
      else if jsstring_eqb first (lit "help")
      then
        match others with
        | [] | [] :: _ => mkProcess (printGeneralHelp commands) None Normal
        | target :: _ =>
            match findCommand commands target with
            | None => unknownCommand target
            | Some c => mkProcess (printCommandHelp c) None Normal
            end
        end
      else
        let commandName := first in
        let commandArgs := others in
        match findCommand commands commandName with
        | None => unknownCommand commandName
        | Some c =>
            if existsb isHelpFlag commandArgs
            then mkProcess (printCommandHelp c) None Normal
            else executeCommand c commandArgs []
        end
  end.

(** [main]: the [try] block and its [catch] clause. *)
Definition main (env : Environment) (args : list jsstring) : Process :=
  let p := mainBody env args in
  match completion p with
  | Throw error =>
      mkProcess (events p ++ [ErrLog (errorText error)]) (Some 1) Normal
  | _ => p
  end.
End Dispatcher.

(** ** The shipped registry *)

(** [handleInit] works on the file system; its outcome in the current
    directory is an argument. *)
Definition initCommand (handleInit : RunResult) : CommandDefinition :=
  mkCommand
    (lit "init")
    (lit "Create Taskfile.yml with dev task running bun dev")
    (Some (lit "init"))
    None
    (fun args =>
       if (0 <? length args)%nat
       then mkRunResult []
              (Some (ErrorObject (lit "Unexpected arguments for init: "
                                  ++ join (lit " ") args)))
       else handleInit).

Definition commands (handleInit : RunResult) : list CommandDefinition :=
  [initCommand handleInit].

(** ** The [init] command: [handleInit] *)

(** A value produced by [JSON.parse].  An object is the list of its own
    members, one per key; the text of a number is kept as written. *)
#[warnings="-register-all"]
Inductive JsonValue :=
| JNull
| JBool (b : bool)
| JNumber (literal : jsstring)
| JString (text : jsstring)
| JArray (items : list JsonValue)
| JObject (members : list (jsstring * JsonValue)).

(** [object.key], [None] standing for [undefined]. *)
Definition getMember (key : jsstring) (members : list (jsstring * JsonValue))
  : option JsonValue :=
  match find (fun member => jsstring_eqb (fst member) key) members with
  | Some member => Some (snd member)
  | None => None
  end.

(** The [devScript] that [handleInit] reads off the parsed manifest:
    [parsed] has to be an object with a member [scripts]; [scripts.dev]
    is looked at when [scripts] is an object, and kept, trimmed, when
    it is a string that is not blank. *)
Definition devScriptOf (parsed : JsonValue) : option jsstring :=
  match parsed with
  | JObject members =>
      match getMember (lit "scripts") members with
      | Some scripts =>
          let candidate :=
            match scripts with
            | JObject scriptMembers => getMember (lit "dev") scriptMembers
            | _ => None
            end in
          match candidate with
          | Some (JString text) =>
              match trim text with
              | [] => None
              | _ :: _ => Some (trim text)
              end
          | _ => None
          end
      | None => None
      end
  | _ => None
  end.

(** The text written to [Taskfile.yml]. *)
Definition taskfileContent : jsstring :=
  join newline
    [ lit "version: " ++ [fromCode 34] ++ lit "3" ++ [fromCode 34];
      [];
      lit "tasks:";
      lit "  dev:";
      lit "    cmds:";
      lit "      - bun dev";
      [] ].

(** [throw new Error(message)] *)
Definition failure (message : jsstring) : RunResult :=
  mkRunResult [] (Some (ErrorObject message)).

Section HandleInit.
(** The file system and the host functions [handleInit] calls:
    [existsSync], [readFileSync] and [writeFileSync] of [node:fs],
    [resolve] of [node:path] and [JSON.parse].  A call that throws
    yields the thrown value. *)
Variable FileSystem : Type.
Variable existsSync : FileSystem -> jsstring -> bool.
Variable readFileSync : FileSystem -> jsstring -> Thrown + jsstring.
Variable writeFileSync :
  FileSystem -> jsstring -> jsstring -> FileSystem * option Thrown.
Variable resolve : jsstring -> jsstring -> jsstring.
Variable parseJSON : jsstring -> Thrown + JsonValue.

Definition handleInit (cwd : jsstring) (fs : FileSystem)
  : FileSystem * RunResult :=
  let packageJsonPath := resolve cwd (lit "package.json") in
  if negb (existsSync fs packageJsonPath)
  then (fs, failure (lit "package.json not found in the current directory."))
  else
    match readFileSync fs packageJsonPath with
    | inl error =>
        (fs, failure (lit "Unable to read package.json: " ++ errorText error))
    | inr packageJsonContent =>
        match parseJSON packageJsonContent with
        | inl error =>
            (fs, failure (lit "package.json is not valid JSON: "
                          ++ errorText error))
        | inr parsed =>
            match devScriptOf parsed with
            | None => (fs, failure (lit "No dev script found in package.json."))
            | Some _ =>
                let taskfilePath := resolve cwd (lit "Taskfile.yml") in
                if existsSync fs taskfilePath
                then (fs, failure
                            (lit "Taskfile.yml already exists. Aborting to avoid overwriting."))
                else
                  let '(fs', outcome) :=
                    writeFileSync fs taskfilePath taskfileContent in
                  match outcome with
                  | Some error =>
                      (fs', failure (lit "Failed to write Taskfile.yml: "
                                     ++ errorText error))
                  | None =>
                      (fs',
                       mkRunResult
                         [Log (lit "Created Taskfile.yml with dev task running bun dev.")]
                         None)
                  end
            end
        end
    end.
End HandleInit.

(** A file system for the sample runs: the files of one directory tree
    as pairs of a path and a text; every file can be read and any path
    can be written. *)
Definition SampleFiles := list (jsstring * jsstring).

Definition sampleExists (fs : SampleFiles) (path : jsstring) : bool :=
  existsb (fun file => jsstring_eqb (fst file) path) fs.

Definition sampleRead (fs : SampleFiles) (path : jsstring)
  : Thrown + jsstring :=
  match find (fun file => jsstring_eqb (fst file) path) fs with
  | Some file => inr (snd file)
  | None => inl (ErrorObject (lit "ENOENT: no such file or directory"))
  end.

Definition sampleWrite (fs : SampleFiles) (path content : jsstring)
  : SampleFiles * option Thrown :=
  ((path, content)
   :: filter (fun file => negb (jsstring_eqb (fst file) path)) fs,
   None).

Definition sampleResolve (cwd file : jsstring) : jsstring :=
  cwd ++ lit "/" ++ file.

Definition quote : jsstring := [fromCode 34].

(** The manifest of the sample runs, [{"scripts":{"dev":" vite "}}]. *)
Definition sampleManifest : jsstring :=
  lit "{" ++ quote ++ lit "scripts" ++ quote ++ lit ":{" ++ quote ++ lit "dev"
  ++ quote ++ lit ":" ++ quote ++ lit " vite " ++ quote ++ lit "}}".

(** [JSON.parse] on the two documents of the sample runs. *)
Definition sampleParse (text : jsstring) : Thrown + JsonValue :=
  if jsstring_eqb text sampleManifest
  then inr (JObject [(lit "scripts",
                      JObject [(lit "dev", JString (lit " vite "))])])
  else if jsstring_eqb text (lit "{}")
  then inr (JObject [])
  else inl (ErrorObject (lit "Unexpected token")).

Definition sampleHandleInit : jsstring -> SampleFiles -> SampleFiles * RunResult :=
  handleInit SampleFiles sampleExists sampleRead sampleWrite sampleResolve
    sampleParse.

(** The messages of the [Error]s that [handleInit] throws itself; two of
    them end with the text of the error they wrap. *)
Definition handleInitMessage (message : jsstring) : Prop :=
  message = lit "package.json not found in the current directory."
  \/ (exists detail, message = lit "Unable to read package.json: " ++ detail)
  \/ (exists detail,
        message = lit "package.json is not valid JSON: " ++ detail)
  \/ message = lit "No dev script found in package.json."
  \/ message
     = lit "Taskfile.yml already exists. Aborting to avoid overwriting."
  \/ (exists detail, message = lit "Failed to write Taskfile.yml: " ++ detail).

(** ** The version script ([scripts/bump-version.ts]) *)

Inductive Increment := Major | Minor | Patch.

(** [parseIncrement]; [None] is an absent argument. *)
Definition parseIncrement (value : option jsstring) : Thrown + Increment :=
  match value with
  | None | Some [] => inr Minor
  | Some word =>
      if jsstring_eqb word (lit "major") then inr Major
      else if jsstring_eqb word (lit "minor") then inr Minor
      else if jsstring_eqb word (lit "patch") then inr Patch
      else inl (ErrorObject
                  (lit "Unsupported increment " ++ [fromCode 34] ++ word
                   ++ [fromCode 34] ++ lit ". Use major, minor, or patch."))
  end.

(** [s.split(separator)] for a one-unit separator. *)
Fixpoint splitOnAux (separator : ascii) (s cur : jsstring) : list jsstring :=
  match s with
  | [] => [rev cur]
  | c :: r =>
      if Ascii.eqb c separator then rev cur :: splitOnAux separator r []
      else splitOnAux separator r (c :: cur)
  end.

Definition splitOn (separator : ascii) (s : jsstring) : list jsstring :=
  splitOnAux separator s [].

(** An integer inside a template literal.  The numbers of the script
    are [Z] here, which is exact as long as they stay below [2^53]. *)
Definition numberToString (n : Z) : jsstring :=
  if n <? 0 then lit "-" ++ decimal (Z.to_nat (- n))
  else decimal (Z.to_nat n).

(** [bump]: the three parts are parsed with [Number.parseInt]; any
    other number of parts, or a part that gives [NaN], is refused. *)
Definition bump (version : jsstring) (increment : Increment)
  : Thrown + jsstring :=
  let parts := map parseInt (splitOn (fromCode 46) version) in
  match parts with
  | [Some major; Some minor; Some patch] =>
      match increment with
      | Major => inr (numberToString (major + 1) ++ lit ".0.0")
      | Minor =>
          inr (numberToString major ++ lit "."
               ++ numberToString (minor + 1) ++ lit ".0")
      | Patch =>
          inr (numberToString major ++ lit "." ++ numberToString minor
               ++ lit "." ++ numberToString (patch + 1))
      end
  | _ => inl (ErrorObject (lit "Invalid semantic version: " ++ version))
  end.

(** The version [major.minor.patch] in its usual spelling. *)
Definition semver (major minor patch : nat) : jsstring :=
  decimal major ++ lit "." ++ decimal minor ++ lit "." ++ decimal patch.

(** The number of dots in a string. *)
Definition dots (s : jsstring) : nat :=
  length (filter (fun c => Ascii.eqb c (fromCode 46)) s).

(** ** Vocabulary of the properties *)

(** A string is lower case when [toLowerCase] leaves it alone, and has
    no white space when [\s] matches none of its units. *)
Definition isLowerCase (s : jsstring) : Prop := toLowerCase s = s.

Definition noWhitespace (s : jsstring) : Prop :=
  Forall (fun c => isWhitespace c = false) s.

(** [Subsequence q l]: the units of [q] occur in [l], in order. *)
Inductive Subsequence : jsstring -> jsstring -> Prop :=
| Subsequence_nil l : Subsequence [] l
| Subsequence_take c q l : Subsequence q l -> Subsequence (c :: q) (c :: l)
| Subsequence_skip c q l : Subsequence q l -> Subsequence q (c :: l).

#[local] Hint Constructors Subsequence : core.

(** [input] names [c] up to case: by its name or by one of its aliases. *)
Definition matchesIgnoringCase (input : jsstring) (c : CommandDefinition)
  : Prop :=
  toLowerCase (name c) = toLowerCase input
  \/ exists al alias,
       aliases c = Some al /\ In alias al
       /\ toLowerCase alias = toLowerCase input.

(** Every registered name and alias is written in lower case. *)
Definition lowerCaseRegistry (registry : list CommandDefinition) : Prop :=
  Forall (fun c =>
            isLowerCase (name c)
            /\ forall al, aliases c = Some al -> Forall isLowerCase al)
         registry.

(** [sumZ] adds up the per-token scores of a descriptor. *)
Definition sumZ (l : list Z) : Z := fold_right Z.add 0 l.

Definition tokenScores (tokens : list jsstring) (c : CommandDefinition)
  : list Z :=
  map (fun token => fuzzyScore token (buildSearchText c)) tokens.

(** The order the ranking is meant to follow: higher score first, and
    at equal scores the names in ascending order once case is folded. *)
Definition rankedBefore (localeCompare : jsstring -> jsstring -> Z)
  (a b : Entry) : Prop :=
  score b < score a
  \/ (score a = score b
      /\ localeCompare (toLowerCase (name (command a)))
                       (toLowerCase (name (command b))) <= 0).

(** ** Sample registries and a sample collation *)

Definition silent : list jsstring -> RunResult :=
  fun _ => mkRunResult [] None.

Definition sampleInit : CommandDefinition :=
  mkCommand (lit "init") (lit "Create manifest") None None silent.

Definition sampleInstall : CommandDefinition :=
  mkCommand (lit "install") (lit "Install deps") None (Some [lit "i"]) silent.

(** Unit-by-unit comparison of two strings. *)
Fixpoint lexCompare (a b : jsstring) : Z :=
  match a, b with
  | [], [] => 0
  | [], _ :: _ => -1
  | _ :: _, [] => 1
  | x :: a', y :: b' =>
      if code x <? code y then -1
      else if code y <? code x then 1
      else lexCompare a' b'
  end.

(** A collation that ignores case altogether. *)
Definition foldedCompare (a b : jsstring) : Z :=
  lexCompare (toLowerCase a) (toLowerCase b).

(** [handleInit] in a directory without [package.json]. *)
Definition missingPackage : RunResult :=
  mkRunResult []
    (Some (ErrorObject (lit "package.json not found in the current directory."))).

Definition terminalEnvironment (lines : list jsstring) : Environment :=
  mkEnvironment true true lines.

(** A descriptor survives the ranking when every token scores against
    its search text. *)
Definition matchesAllTokens (tokens : list jsstring) (c : CommandDefinition)
  : bool :=
  forallb (fun token => negb (fuzzyScore token (buildSearchText c) =? -1))
          tokens.

(** The commands a selector state holds all come from [definitions]. *)
Definition stateWithin (definitions : list CommandDefinition)
  (st : SelectorState) : Prop :=
  match st with
  | AwaitingSelection suggestions =>
      Forall (fun entry => In (command entry) definitions) suggestions
  | Done c => In c definitions
  | AwaitingQuery | Cancelled => True
  end.

(** The events that open and close the readline interface. *)
Definition isInterfaceEvent (e : Event) : bool :=
  match e with
  | CreateInterface | CloseInterface => true
  | _ => false
  end.

(** The lines read from the user, in the order of the questions. *)
Definition answersOf (trace : list Event) : list jsstring :=
  flat_map (fun e => match e with
                     | Question _ answer => [answer]
                     | _ => []
                     end) trace.

Definition isLog (e : Event) : bool :=
  match e with
  | Log _ => true
  | _ => false
  end.

(** A trace in which the readline interface is neither created nor
    closed and no line is read. *)
Definition noPrompting (trace : list Event) : Prop :=
  filter isInterfaceEvent trace = [] /\ answersOf trace = [].

(** What [main] has done once [run] has given [r], thrown or not. *)
Definition reported (r : RunResult) : Process :=
  match runThrown r with
  | Some error =>
      mkProcess (runEvents r ++ [ErrLog (errorText error)]) (Some 1) Normal
  | None => mkProcess (runEvents r) None Normal
  end.

(** * Properties *)

(** ** Sample evaluations *)

Example fuzzy_tsk : fuzzyScore (lit "tsk") (lit "task") = 5.
Proof. reflexivity. Qed.

Example fuzzy_tas : fuzzyScore (lit "T as") (lit "task") = 6.
Proof. reflexivity. Qed.

Example fuzzy_none : fuzzyScore (lit "xyz") (lit "task") = -1.
Proof. reflexivity. Qed.

Example split_example :
  splitWhitespace (lit " a  b ") = [lit ""; lit "a"; lit "b"; lit ""].
Proof. reflexivity. Qed.

(** ** Code units *)

Lemma toLowerChar_idempotent (c : ascii) :
  toLowerChar (toLowerChar c) = toLowerChar c.
Proof.
  destruct c as [[] [] [] [] [] [] [] []]; vm_compute; reflexivity.
Qed.

Lemma isWhitespace_toLowerChar (c : ascii) :
  isWhitespace (toLowerChar c) = isWhitespace c.
Proof.
  destruct c as [[] [] [] [] [] [] [] []]; vm_compute; reflexivity.
Qed.

Lemma toLowerCase_idempotent (s : jsstring) :
  toLowerCase (toLowerCase s) = toLowerCase s.
Proof.
  unfold toLowerCase. rewrite map_map.
  apply map_ext. intro c. apply toLowerChar_idempotent.
Qed.

Lemma toLowerCase_length (s : jsstring) :
  length (toLowerCase s) = length s.
Proof. apply length_map. Qed.

Lemma jsstring_eqb_eq (a b : jsstring) : jsstring_eqb a b = true <-> a = b.
Proof.
  unfold jsstring_eqb. destruct (list_eq_dec ascii_dec a b); split;
    congruence.
Qed.

Lemma jsstring_eqb_neq (a b : jsstring) : jsstring_eqb a b = false <-> a <> b.
Proof.
  unfold jsstring_eqb. destruct (list_eq_dec ascii_dec a b); split;
    congruence.
Qed.

Lemma isLowerCase_cons (c : ascii) (s : jsstring) :
  isLowerCase (c :: s) <-> toLowerChar c = c /\ isLowerCase s.
Proof.
  unfold isLowerCase. simpl. split.
  - intro H. injection H as H1 H2. auto.
  - intros [H1 H2]. congruence.
Qed.

Lemma removeWhitespace_id (s : jsstring) :
  noWhitespace s -> removeWhitespace s = s.
Proof.
  unfold removeWhitespace.
  induction 1 as [|c s Hc _ IH]; simpl; [reflexivity|].
  rewrite Hc. simpl. now rewrite IH.
Qed.

Lemma removeWhitespace_noWhitespace (s : jsstring) :
  noWhitespace (removeWhitespace s).
Proof.
  unfold noWhitespace, removeWhitespace. apply Forall_forall.
  intros c Hc. apply filter_In in Hc. destruct Hc as [_ Hc].
  now apply negb_true_iff in Hc.
Qed.

Lemma normalizeQuery_lower (q : jsstring) : isLowerCase (normalizeQuery q).
Proof.
  unfold isLowerCase, normalizeQuery, removeWhitespace, toLowerCase.
  induction q as [|c q IH]; simpl; [reflexivity|].
  destruct (isWhitespace (toLowerChar c)); simpl; [exact IH|].
  now rewrite toLowerChar_idempotent, IH.
Qed.

Lemma normalizeQuery_id (s : jsstring) :
  isLowerCase s -> noWhitespace s -> normalizeQuery s = s.
Proof.
  intros Hl Hw. unfold normalizeQuery. rewrite Hl.
  now apply removeWhitespace_id.
Qed.

(** ** [indexOf] *)

Lemma indexOfAux_cases (c : ascii) (s : jsstring) (i : Z) :
  0 <= i ->
  (indexOfAux c s i = -1 /\ ~ In c s)
  \/ (exists pre post,
        s = pre ++ c :: post /\ ~ In c pre
        /\ indexOfAux c s i = i + Z.of_nat (length pre)).
Proof.
  revert i. induction s as [|x s IH]; intros i Hi; simpl.
  - left. auto.
  - destruct (Ascii.eqb_spec x c) as [->|Hne].
    + right. exists [], s. simpl. repeat split; auto. lia.
    + destruct (IH (i + 1)) as [[H1 H2]|(pre & post & H1 & H2 & H3)];
        [lia| |].
      * left. split; [exact H1|]. intros [?|?]; auto.
      * right. exists (x :: pre), post. subst s. simpl.
        repeat split; [|lia]. intros [?|?]; auto.
Qed.

Lemma indexOf_cases (s : jsstring) (c : ascii) (i : Z) :
  0 <= i <= Z.of_nat (length s) ->
  (indexOf s c i = -1 /\ ~ In c (skipn (Z.to_nat i) s))
  \/ (exists pre,
        ~ In c pre
        /\ skipn (Z.to_nat i) s
           = pre ++ c :: skipn (Z.to_nat (i + Z.of_nat (length pre) + 1)) s
        /\ indexOf s c i = i + Z.of_nat (length pre)
        /\ i + Z.of_nat (length pre) + 1 <= Z.of_nat (length s)).
Proof.
  intro Hi. unfold indexOf.
  replace (Z.min (Z.max i 0) (Z.of_nat (length s))) with i by lia.
  destruct (indexOfAux_cases c (skipn (Z.to_nat i) s) i)
    as [[H1 H2]|(pre & post & H1 & H2 & H3)]; [lia|left; auto|].
  right. exists pre.
  assert (Hlen : (length (skipn (Z.to_nat i) s)
                  = length pre + S (length post))%nat).
  { rewrite H1, length_app. reflexivity. }
  rewrite length_skipn in Hlen.
  assert (Hpost : skipn (Z.to_nat (i + Z.of_nat (length pre) + 1)) s = post).
  { replace (Z.to_nat (i + Z.of_nat (length pre) + 1))
      with (S (length pre) + Z.to_nat i)%nat by lia.
    rewrite <- skipn_skipn, H1.
    replace (S (length pre)) with (length pre + 1)%nat by lia.
    rewrite skipn_app, skipn_all2 by lia.
    replace (length pre + 1 - length pre)%nat with 1%nat by lia.
    reflexivity. }
  rewrite Hpost. repeat split; auto. lia.
Qed.

Lemma indexOf_here (pre post : jsstring) (c : ascii) :
  indexOf (pre ++ c :: post) c (Z.of_nat (length pre))
  = Z.of_nat (length pre).
Proof.
  unfold indexOf. rewrite length_app. simpl length.
  replace (Z.min (Z.max (Z.of_nat (length pre)) 0)
             (Z.of_nat (length pre + S (length post))))
    with (Z.of_nat (length pre)) by lia.
  rewrite Nat2Z.id, skipn_app, skipn_all, Nat.sub_diag. simpl.
  now rewrite Ascii.eqb_refl.
Qed.

(** ** Subsequences *)

Lemma Subsequence_tail (c : ascii) (q l : jsstring) :
  Subsequence (c :: q) l -> Subsequence q l.
Proof.
  induction l as [|x l IH]; intro H; inversion H; subst; auto.
Qed.

Lemma Subsequence_In (c : ascii) (q l : jsstring) :
  Subsequence (c :: q) l -> In c l.
Proof.
  induction l as [|x l IH]; intro H; inversion H; subst; simpl; auto.
Qed.

Lemma Subsequence_app_l (pre q l : jsstring) :
  Subsequence q l -> Subsequence q (pre ++ l).
Proof. induction pre; simpl; auto. Qed.

Lemma Subsequence_first_occurrence (c : ascii) (pre q post : jsstring) :
  ~ In c pre ->
  Subsequence (c :: q) (pre ++ c :: post) <-> Subsequence q post.
Proof.
  intro Hpre. split.
  - induction pre as [|x pre IH]; simpl; intro H.
    + inversion H; subst; auto. eapply Subsequence_tail; eauto.
    + inversion H; subst.
      * exfalso. apply Hpre. now left.
      * apply IH; auto. intro Hin. apply Hpre. now right.
  - intro H. apply Subsequence_app_l. auto.
Qed.

Lemma Subsequence_refl (l : jsstring) : Subsequence l l.
Proof. induction l; auto. Qed.

(** ** The scoring loop *)

(** The loop either fails, exactly when the rest of the query is not a
    subsequence of the text from the cursor on, or adds one or two
    points per unit. *)
Lemma fuzzyLoop_cases (q candidate : jsstring) :
  isLowerCase q ->
  forall acc i,
    0 <= acc -> 0 <= i <= Z.of_nat (length candidate) ->
    (fuzzyLoop q candidate acc i = -1
     /\ ~ Subsequence q (skipn (Z.to_nat i) candidate))
    \/ (Subsequence q (skipn (Z.to_nat i) candidate)
        /\ acc + Z.of_nat (length q) <= fuzzyLoop q candidate acc i
           <= acc + 2 * Z.of_nat (length q)).
Proof.
  induction q as [|c q IH]; intros Hlow acc i Hacc Hi.
  - right. simpl. split; [auto|lia].
  - apply isLowerCase_cons in Hlow. destruct Hlow as [Hc Hq].
    simpl fuzzyLoop. rewrite Hc.
    destruct (indexOf_cases candidate c i Hi)
      as [[H1 H2]|(pre & H1 & H2 & H3 & H4)].
    + left. rewrite H1. simpl. split; [reflexivity|].
      intro Hs. apply H2. eapply Subsequence_In; eauto.
    + rewrite H3.
      destruct (Z.eqb_spec (i + Z.of_nat (length pre)) (-1)) as [E|_];
        [lia|].
      set (acc' := if i + Z.of_nat (length pre) =? i
                   then acc + 2 else acc + 1).
      assert (Hacc' : acc + 1 <= acc' <= acc + 2).
      { unfold acc'. destruct (_ =? _); lia. }
      assert (Hacc0 : 0 <= acc') by lia.
      assert (Hnext : 0 <= i + Z.of_nat (length pre) + 1
                      <= Z.of_nat (length candidate)) by lia.
      destruct (IH Hq acc' (i + Z.of_nat (length pre) + 1) Hacc0 Hnext)
        as [[E1 E2]|[E1 E2]].
      * left. split; [exact E1|]. rewrite H2.
        intro Hs. apply E2.
        now apply (Subsequence_first_occurrence c pre q) in Hs.
      * right. split.
        -- rewrite H2. now apply Subsequence_first_occurrence.
        -- simpl length. lia.
Qed.

(** When the query is found unit after unit at the cursor, every unit
    earns the contiguity bonus. *)
Lemma fuzzyLoop_contiguous (q : jsstring) :
  isLowerCase q ->
  forall pre post acc,
    fuzzyLoop q (pre ++ q ++ post) acc (Z.of_nat (length pre))
    = acc + 2 * Z.of_nat (length q).
Proof.
  induction q as [|c q IH]; intros Hlow pre post acc.
  - simpl. lia.
  - apply isLowerCase_cons in Hlow. destruct Hlow as [Hc Hq].
    simpl fuzzyLoop. rewrite Hc. simpl app.
    rewrite indexOf_here, Z.eqb_refl.
    destruct (Z.eqb_spec (Z.of_nat (length pre)) (-1)) as [E|_]; [lia|].
    specialize (IH Hq (pre ++ [c]) post (acc + 2)).
    rewrite <- app_assoc, length_app in IH. cbn [app length] in IH.
    replace (Z.of_nat (length pre) + 1)
      with (Z.of_nat (length pre + 1)) by lia.
    rewrite IH. cbn [length]. lia.
Qed.

Lemma fuzzyScore_cases (query candidate : jsstring) :
  let q := normalizeQuery query in
  (fuzzyScore query candidate = -1
   /\ (q = [] \/ ~ Subsequence q candidate))
  \/ (q <> [] /\ Subsequence q candidate
      /\ Z.of_nat (length q) <= fuzzyScore query candidate
         <= 2 * Z.of_nat (length q)).
Proof.
  cbv zeta. unfold fuzzyScore.
  destruct (normalizeQuery query) as [|c q'] eqn:E.
  - left. auto.
  - assert (Hlow : isLowerCase (c :: q')).
    { rewrite <- E. apply normalizeQuery_lower. }
    assert (Hrange : 0 <= 0 <= Z.of_nat (length candidate)) by lia.
    destruct (fuzzyLoop_cases (c :: q') candidate Hlow 0 0 (Z.le_refl 0) Hrange)
      as [[H1 H2]|[H1 H2]].
    + left. auto.
    + right. simpl skipn in H1. split; [discriminate|]. split; [exact H1|lia].
Qed.

Lemma fuzzyScore_nonneg (query candidate : jsstring) :
  fuzzyScore query candidate <> -1 -> 1 <= fuzzyScore query candidate.
Proof.
  intro H. destruct (fuzzyScore_cases query candidate)
    as [[H1 _]|(H1 & _ & H2)]; [contradiction|].
  destruct (normalizeQuery query); [contradiction|]. simpl length in H2. lia.
Qed.

(** C3.  [fuzzyScore] returns [-1] exactly when the normalised query is
    empty or is not a subsequence of the candidate text; in every other
    case it returns a (positive) integer score. *)
Theorem fuzzyScore_no_match_iff (query candidate : jsstring) :
  (fuzzyScore query candidate = -1
   <-> normalizeQuery query = []
       \/ ~ Subsequence (normalizeQuery query) candidate)
  /\ (fuzzyScore query candidate <> -1 -> 0 < fuzzyScore query candidate).
Proof.
  split.
  - destruct (fuzzyScore_cases query candidate)
      as [[H1 H2]|(H1 & H2 & H3)].
    + split; auto.
    + split.
      * intro H. destruct (normalizeQuery query); [contradiction|].
        simpl length in H3. lia.
      * intros [H|H]; contradiction.
  - intro H. apply fuzzyScore_nonneg in H. lia.
Qed.

Lemma fuzzyScore_no_match_iff_witness :
  (fuzzyScore (lit "t sk") (lit "task") <> -1
   /\ ~ Subsequence (normalizeQuery (lit "kt")) (lit "task"))
  /\ 0 < fuzzyScore (lit "t sk") (lit "task")
  /\ fuzzyScore (lit "kt") (lit "task") = -1.
Proof.
  assert (H1 : fuzzyScore (lit "t sk") (lit "task") <> -1)
    by (vm_compute; discriminate).
  assert (H2 : ~ Subsequence (normalizeQuery (lit "kt")) (lit "task")).
  { intro H. vm_compute in H.
    repeat match goal with
           | [ S : Subsequence _ _ |- _ ] => inversion S; clear S; subst
           end. }
  split; [split; [exact H1|exact H2]|]. split.
  - exact (proj2 (fuzzyScore_no_match_iff (lit "t sk") (lit "task")) H1).
  - apply (proj1 (fuzzyScore_no_match_iff (lit "kt") (lit "task"))).
    right. exact H2.
Defined.

(** C5.  A successful score lies between [L] and [2L], where [L] is the
    length of the normalised query, and it is [2L] when the normalised
    query is a prefix of the candidate text. *)
Theorem fuzzyScore_bounds (query candidate : jsstring) :
  fuzzyScore query candidate <> -1 ->
  let L := Z.of_nat (length (normalizeQuery query)) in
  L <= fuzzyScore query candidate <= 2 * L
  /\ ((exists rest, candidate = normalizeQuery query ++ rest) ->
      fuzzyScore query candidate = 2 * L).
Proof.
  intros H L. split.
  - destruct (fuzzyScore_cases query candidate)
      as [[H1 _]|(_ & _ & H3)]; [contradiction|exact H3].
  - intros [rest ->]. unfold fuzzyScore in *. subst L.
    pose proof (fuzzyLoop_contiguous (normalizeQuery query)
                  (normalizeQuery_lower query) [] rest 0) as Hc.
    cbn [app length] in Hc. change (Z.of_nat 0) with 0 in Hc.
    destruct (normalizeQuery query) as [|c q]; [contradiction|].
    rewrite Hc. lia.
Qed.

Lemma fuzzyScore_bounds_witness :
  fuzzyScore (lit "In it") (lit "init init create") <> -1
  /\ (4 <= fuzzyScore (lit "In it") (lit "init init create") <= 2 * 4
      /\ ((exists rest, lit "init init create" = lit "init" ++ rest) ->
          fuzzyScore (lit "In it") (lit "init init create") = 2 * 4)).
Proof.
  split; [vm_compute; discriminate|].
  apply (fuzzyScore_bounds (lit "In it") (lit "init init create")).
  vm_compute; discriminate.
Defined.

(** C4, as the code has it.  For a non-empty lower-case string [s]
    without white space, [fuzzyScore s s] is [2 * length s], and no
    candidate text gives [s] a higher score. *)
Theorem fuzzyScore_self (s : jsstring) :
  s <> [] -> isLowerCase s -> noWhitespace s ->
  fuzzyScore s s = 2 * Z.of_nat (length s)
  /\ forall candidate, fuzzyScore s candidate <= 2 * Z.of_nat (length s).
Proof.
  intros Hne Hlow Hws.
  pose proof (normalizeQuery_id s Hlow Hws) as Hn. split.
  - unfold fuzzyScore. rewrite Hn.
    pose proof (fuzzyLoop_contiguous s Hlow [] [] 0) as Hc.
    cbn [app length] in Hc. change (Z.of_nat 0) with 0 in Hc.
    rewrite app_nil_r in Hc.
    destruct s; [contradiction|]. rewrite Hc. lia.
  - intro candidate.
    destruct (fuzzyScore_cases s candidate) as [[H1 _]|(_ & _ & H3)].
    + rewrite H1. lia.
    + rewrite Hn in H3. lia.
Qed.

Lemma fuzzyScore_self_witness :
  (lit "init" <> [] /\ isLowerCase (lit "init") /\ noWhitespace (lit "init"))
  /\ fuzzyScore (lit "init") (lit "init") = 2 * 4
  /\ forall candidate, fuzzyScore (lit "init") candidate <= 2 * 4.
Proof.
  assert (H1 : lit "init" <> []) by discriminate.
  assert (H2 : isLowerCase (lit "init")) by reflexivity.
  assert (H3 : noWhitespace (lit "init")).
  { repeat constructor. }
  split; [auto|].
  exact (fuzzyScore_self (lit "init") H1 H2 H3).
Defined.

(** C4 as written fails on the empty string, which the guard of
    [fuzzyScore] rejects, and on a lower-case string with a blank,
    which is removed from the query but not from the candidate. *)
Lemma fuzzyScore_self_counterexample :
  (isLowerCase (lit "")
   /\ fuzzyScore (lit "") (lit "") = -1
   /\ fuzzyScore (lit "") (lit "") <> 2 * Z.of_nat (length (lit "")))
  /\ (isLowerCase (lit "a b")
      /\ fuzzyScore (lit "a b") (lit "a b") = 3
      /\ fuzzyScore (lit "a b") (lit "a b")
         <> 2 * Z.of_nat (length (lit "a b"))).
Proof.
  repeat split; vm_compute; discriminate.
Qed.

(** ** The registry lookup *)

Lemma commandMatches_iff (input : jsstring) (c : CommandDefinition) :
  isLowerCase (name c) ->
  (forall al, aliases c = Some al -> Forall isLowerCase al) ->
  commandMatches (toLowerCase input) c = true <-> matchesIgnoringCase input c.
Proof.
  intros Hn Ha. unfold commandMatches, matchesIgnoringCase.
  destruct (jsstring_eqb (name c) (toLowerCase input)) eqn:E.
  - apply jsstring_eqb_eq in E. split; [|reflexivity].
    intros _. left. now rewrite Hn.
  - apply jsstring_eqb_neq in E. rewrite Hn.
    destruct (aliases c) as [al|] eqn:Eal.
    + specialize (Ha al eq_refl). rewrite Forall_forall in Ha.
      rewrite existsb_exists. split.
      * intros (alias & Hin & Heq). apply jsstring_eqb_eq in Heq.
        right. exists al, alias. repeat split; auto.
        now rewrite (Ha alias Hin).
      * intros [H|(al' & alias & Hal & Hin & Heq)]; [contradiction|].
        injection Hal as <-. exists alias. split; [exact Hin|].
        apply jsstring_eqb_eq. now rewrite <- (Ha alias Hin).
    + split; [discriminate|].
      intros [H|(al' & alias & Hal & _)]; [contradiction|discriminate].
Qed.

Lemma find_first {A : Type} (f : A -> bool) (l : list A) :
  (exists before x after,
      l = before ++ x :: after
      /\ Forall (fun y => f y = false) before
      /\ f x = true /\ find f l = Some x)
  \/ (Forall (fun y => f y = false) l /\ find f l = None).
Proof.
  induction l as [|a l IH]; simpl.
  - right. auto.
  - destruct (f a) eqn:E.
    + left. exists [], a, l. auto.
    + destruct IH as [(before & x & after & -> & H1 & H2 & H3)|[H1 H2]].
      * left. exists (a :: before), x, after. auto.
      * right. auto.
Qed.

(** The lookup in any registry whose names and aliases are lower case:
    [findCommand] returns the first entry, in registration order, that
    the input names up to case, so the entry itself when no earlier one
    matches; it returns nothing when no entry matches. *)
Lemma findCommand_first_match
  (registry : list CommandDefinition) (input : jsstring) :
  lowerCaseRegistry registry ->
  (forall d, In d registry -> matchesIgnoringCase input d ->
     exists before first after,
       registry = before ++ first :: after
       /\ Forall (fun c => ~ matchesIgnoringCase input c) before
       /\ matchesIgnoringCase input first
       /\ findCommand registry input = Some first)
  /\ (forall before d after,
        registry = before ++ d :: after ->
        Forall (fun c => ~ matchesIgnoringCase input c) before ->
        matchesIgnoringCase input d ->
        findCommand registry input = Some d)
  /\ ((forall d, In d registry -> ~ matchesIgnoringCase input d) ->
      findCommand registry input = None).
Proof.
  intro Hreg. unfold lowerCaseRegistry in Hreg. rewrite Forall_forall in Hreg.
  assert (Hiff : forall c, In c registry ->
            (commandMatches (toLowerCase input) c = true
             <-> matchesIgnoringCase input c)).
  { intros c Hc. destruct (Hreg c Hc). now apply commandMatches_iff. }
  assert (Hnot : forall l, (forall c, In c l -> In c registry) ->
            Forall (fun y => commandMatches (toLowerCase input) y = false) l
            <-> Forall (fun c => ~ matchesIgnoringCase input c) l).
  { intros l Hl. rewrite !Forall_forall. split; intros H c Hc.
    - rewrite <- (Hiff c (Hl c Hc)), (H c Hc). discriminate.
    - specialize (H c Hc). rewrite <- (Hiff c (Hl c Hc)) in H.
      now apply not_true_is_false. }
  unfold findCommand.
  destruct (find_first (commandMatches (toLowerCase input)) registry)
    as [(before & x & after & E & H1 & H2 & H3)|[H1 H2]].
  - assert (Hbefore : forall c, In c before -> In c registry).
    { intros c Hc. rewrite E. apply in_or_app. now left. }
    assert (Hx : In x registry).
    { rewrite E. apply in_or_app. right. now left. }
    apply Hnot in H1; [|exact Hbefore]. apply Hiff in H2; [|exact Hx].
    split; [|split].
    + intros _ _ _. exists before, x, after. auto.
    + intros before' d after' E' Hb' Hd.
      rewrite H3. f_equal.
      assert (Hd' : In d registry).
      { rewrite E'. apply in_or_app. right. now left. }
      assert (Hb'' : forall c, In c before' -> In c registry).
      { intros c Hc. rewrite E'. apply in_or_app. now left. }
      apply Hnot in Hb'; [|exact Hb'']. apply Hiff in Hd; [|exact Hd'].
      rewrite E' in H3. clear - H3 Hb' Hd.
      induction before' as [|b bs IH]; simpl in H3.
      * rewrite Hd in H3. congruence.
      * inversion Hb'; subst. rewrite H1 in H3. auto.
    + intro Hnone. exfalso. exact (Hnone x Hx H2).
  - apply Hnot in H1; [|auto]. rewrite Forall_forall in H1.
    split; [|split].
    + intros d Hd Hm. exfalso. exact (H1 d Hd Hm).
    + intros before d after E _ Hd. exfalso. apply (H1 d); [|exact Hd].
      rewrite E. apply in_or_app. right. now left.
    + intros _. exact H2.
Qed.

Lemma findCommand_first_match_witness :
  lowerCaseRegistry [sampleInit; sampleInstall]
  /\ findCommand [sampleInit; sampleInstall] (lit "I") = Some sampleInstall.
Proof.
  assert (H : lowerCaseRegistry [sampleInit; sampleInstall]).
  { repeat constructor; simpl; intros al E; try discriminate.
    injection E as <-. repeat constructor. }
  split; [exact H|].
  destruct (findCommand_first_match [sampleInit; sampleInstall] (lit "I") H)
    as (_ & Hfirst & _).
  apply (Hfirst [sampleInit] sampleInstall []); [reflexivity| |].
  - constructor; [|constructor].
    intros [E|(al & alias & E & _)]; discriminate.
  - right. exists [lit "i"], (lit "i"). simpl. auto.
Defined.

Lemma commands_lowerCase (handleInit : RunResult) :
  lowerCaseRegistry (commands handleInit).
Proof.
  unfold commands. constructor; [|constructor].
  split; [reflexivity|]. intros al E. discriminate E.
Qed.

(** C6.  For every descriptor of the registry, and every input that is
    its name or one of its aliases up to case, [findCommand] returns the
    first registry entry, in registration order, that the input names
    up to case, which is that descriptor when no earlier entry matches.
    On an input that names no entry [findCommand] returns nothing; it
    is a total function.  For the registry as shipped this means: every
    spelling of [init] finds [init], and nothing else finds anything. *)
Theorem findCommand_registered (handleInit : RunResult) (input : jsstring) :
  (forall d,
     In d (commands handleInit) -> matchesIgnoringCase input d ->
     exists before first after,
       commands handleInit = before ++ first :: after
       /\ Forall (fun c => ~ matchesIgnoringCase input c) before
       /\ matchesIgnoringCase input first
       /\ findCommand (commands handleInit) input = Some first)
  /\ (forall before d after,
        commands handleInit = before ++ d :: after ->
        Forall (fun c => ~ matchesIgnoringCase input c) before ->
        matchesIgnoringCase input d ->
        findCommand (commands handleInit) input = Some d)
  /\ ((forall d,
         In d (commands handleInit) -> ~ matchesIgnoringCase input d) ->
      findCommand (commands handleInit) input = None)
  /\ (toLowerCase input = toLowerCase (name (initCommand handleInit)) ->
      findCommand (commands handleInit) input = Some (initCommand handleInit))
  /\ (toLowerCase input <> toLowerCase (name (initCommand handleInit)) ->
      findCommand (commands handleInit) input = None).
Proof.
  destruct (findCommand_first_match (commands handleInit) input
              (commands_lowerCase handleInit)) as (H1 & H2 & H3).
  split; [exact H1|]. split; [exact H2|]. split; [exact H3|]. split.
  - intro E. apply (H2 [] (initCommand handleInit) []);
      [reflexivity|constructor|].
    left. symmetry. exact E.
  - intro Hne. apply H3. intros d [<-|[]] [E|(al & alias & Hal & _)].
    + apply Hne. symmetry. exact E.
    + discriminate Hal.
Qed.

Lemma findCommand_registered_witness :
  (In (initCommand missingPackage) (commands missingPackage)
   /\ matchesIgnoringCase (lit "InIt") (initCommand missingPackage))
  /\ findCommand (commands missingPackage) (lit "InIt")
     = Some (initCommand missingPackage).
Proof.
  assert (H1 : In (initCommand missingPackage) (commands missingPackage))
    by (left; reflexivity).
  assert (H2 : matchesIgnoringCase (lit "InIt") (initCommand missingPackage))
    by (left; reflexivity).
  split; [split; [exact H1|exact H2]|].
  destruct (findCommand_registered missingPackage (lit "InIt"))
    as (Hfirst & _).
  destruct (Hfirst (initCommand missingPackage) H1 H2)
    as (before & first & after & E & _ & _ & Hfound).
  destruct before as [|b before]; [|destruct before; discriminate E].
  injection E as <- _. exact Hfound.
Defined.

(** ** Tokens *)

Lemma splitAux_no_token (s cur : jsstring) (inSep : bool) :
  (inSep = true -> cur = []) ->
  filter (fun token => 0 <? Z.of_nat (length token)) (splitAux s cur inSep) = []
  <-> cur = [] /\ Forall (fun ch => isWhitespace ch = true) s.
Proof.
  revert cur inSep. induction s as [|c s IH]; intros cur inSep Hinv; simpl.
  - destruct cur as [|x cur]; simpl.
    + split; auto.
    + rewrite length_app. simpl length.
      destruct (Z.ltb_spec 0 (Z.of_nat (length (rev cur) + 1))); [|lia].
      split; [discriminate|]. intros [E _]. discriminate.
  - destruct (isWhitespace c) eqn:Ec.
    + destruct inSep.
      * rewrite (Hinv eq_refl). rewrite (IH [] true (fun _ => eq_refl)).
        split; intros [_ H]; split; auto. now inversion H.
      * simpl. destruct cur as [|x cur]; simpl.
        -- rewrite (IH [] true (fun _ => eq_refl)).
           split; intros [_ H]; split; auto. now inversion H.
        -- rewrite length_app. simpl length.
           destruct (Z.ltb_spec 0 (Z.of_nat (length (rev cur) + 1))); [|lia].
           split; [discriminate|]. intros [E _]. discriminate.
    + rewrite (IH (c :: cur) false) by discriminate.
      split; [intros [E _]; discriminate|].
      intros [_ H]. inversion H; subst. congruence.
Qed.

Lemma tokenize_nil_iff (query : jsstring) :
  tokenize query = [] <-> Forall (fun ch => isWhitespace ch = true) query.
Proof.
  unfold tokenize, splitWhitespace.
  rewrite splitAux_no_token by discriminate.
  unfold toLowerCase. rewrite Forall_map. split.
  - intros [_ H]. eapply Forall_impl; [|exact H].
    intros ch Hch. cbv beta in Hch.
    now rewrite isWhitespace_toLowerChar in Hch.
  - intro H. split; [reflexivity|]. eapply Forall_impl; [|exact H].
    intros ch Hch. cbv beta. now rewrite isWhitespace_toLowerChar.
Qed.

(** ** The per-descriptor sum *)

Lemma sumTokens_cases (tokens : list jsstring) (searchText : jsstring) :
  forall acc, 0 <= acc ->
  (sumTokens tokens searchText acc = -1
   /\ Exists (fun t => fuzzyScore t searchText = -1) tokens)
  \/ (Forall (fun t => fuzzyScore t searchText <> -1) tokens
      /\ sumTokens tokens searchText acc
         = acc + sumZ (map (fun t => fuzzyScore t searchText) tokens)
      /\ 0 <= sumTokens tokens searchText acc).
Proof.
  induction tokens as [|t tokens IH]; intros acc Hacc; simpl.
  - right. repeat split; [constructor|lia|lia].
  - destruct (Z.eq_dec (fuzzyScore t searchText) (-1)) as [E|E].
    + left. rewrite E. simpl. split; [reflexivity|]. now constructor.
    + pose proof (fuzzyScore_nonneg t searchText E) as Hpos.
      destruct (Z.ltb_spec (fuzzyScore t searchText) 0) as [?|_]; [lia|].
      destruct (IH (acc + fuzzyScore t searchText)) as [[H1 H2]|(H1 & H2 & H3)];
        [lia| |].
      * left. split; [exact H1|]. now constructor.
      * right. repeat split; [now constructor|lia|lia].
Qed.

(** ** Sorting *)

Section SortFacts.
Context {A : Type} (compare : A -> A -> Z).

Lemma insertBy_permutation (a : A) (l : list A) :
  Permutation (insertBy compare a l) (a :: l).
Proof.
  induction l as [|b l IH]; simpl; [reflexivity|].
  destruct (compare a b <=? 0); [reflexivity|].
  rewrite IH. apply perm_swap.
Qed.

Lemma sortBy_permutation (l : list A) : Permutation (sortBy compare l) l.
Proof.
  induction l as [|a l IH]; simpl; [reflexivity|].
  rewrite insertBy_permutation. now constructor.
Qed.

Hypothesis compare_total :
  forall a b, compare a b <= 0 \/ compare b a <= 0.
Hypothesis compare_transitive :
  forall a b c, compare a b <= 0 -> compare b c <= 0 -> compare a c <= 0.

Lemma insertBy_sorted (a : A) (l : list A) :
  StronglySorted (fun x y => compare x y <= 0) l ->
  StronglySorted (fun x y => compare x y <= 0) (insertBy compare a l).
Proof.
  induction 1 as [|b l Hl IH Hb]; simpl.
  - repeat constructor.
  - destruct (Z.leb_spec (compare a b) 0) as [Hab|Hab].
    + constructor; [now constructor|].
      constructor; [exact Hab|].
      eapply Forall_impl; [|exact Hb].
      intros c Hc. eapply compare_transitive; eauto.
    + constructor; [exact IH|].
      apply (Permutation_Forall
               (Permutation_sym (insertBy_permutation a l))).
      constructor; [|exact Hb].
      destruct (compare_total a b); [lia|assumption].
Qed.

Lemma sortBy_sorted (l : list A) :
  StronglySorted (fun x y => compare x y <= 0) (sortBy compare l).
Proof.
  induction l as [|a l IH]; simpl; [constructor|].
  now apply insertBy_sorted.
Qed.
End SortFacts.

(** ** The ranking *)

Lemma scoreCommand_cases (tokens : list jsstring) (c : CommandDefinition) :
  (score (scoreCommand tokens c) = -1
   /\ Exists (fun t => fuzzyScore t (buildSearchText c) = -1) tokens)
  \/ (Forall (fun t => fuzzyScore t (buildSearchText c) <> -1) tokens
      /\ score (scoreCommand tokens c) = sumZ (tokenScores tokens c)
      /\ 0 <= score (scoreCommand tokens c)).
Proof.
  unfold scoreCommand, tokenScores. simpl.
  destruct (sumTokens_cases tokens (buildSearchText c) 0 (Z.le_refl 0))
    as [H|(H1 & H2 & H3)]; [left; exact H|right].
  repeat split; auto.
Qed.

Lemma In_rankCommands (localeCompare : jsstring -> jsstring -> Z)
  (query : jsstring) (definitions : list CommandDefinition) (e : Entry) :
  In e (rankCommands localeCompare query definitions)
  <-> tokenize query <> []
      /\ In e (filter (fun entry => 0 <=? score entry)
                 (map (scoreCommand (tokenize query)) definitions)).
Proof.
  unfold rankCommands. destruct (tokenize query) as [|t ts] eqn:E.
  - simpl. split; [contradiction|]. intros [H _]. congruence.
  - split.
    + intro H. split; [discriminate|].
      eapply Permutation_in; [apply sortBy_permutation|exact H].
    + intros [_ H].
      eapply Permutation_in;
        [apply Permutation_sym, sortBy_permutation|exact H].
Qed.

(** C1.  A descriptor is in the ranking, with score [s], exactly when
    the query has a token, every token matches the descriptor's search
    text, and [s] is the sum of the per-token scores; a query without
    token, that is, made of white space only, ranks nothing. *)
Theorem rankCommands_membership (localeCompare : jsstring -> jsstring -> Z)
  (query : jsstring) (definitions : list CommandDefinition) :
  (forall c s,
     In (mkEntry c s) (rankCommands localeCompare query definitions)
     <-> In c definitions
         /\ tokenize query <> []
         /\ Forall (fun t => fuzzyScore t (buildSearchText c) <> -1)
                   (tokenize query)
         /\ s = sumZ (tokenScores (tokenize query) c))
  /\ (tokenize query = []
      <-> Forall (fun ch => isWhitespace ch = true) query)
  /\ (tokenize query = []
      -> rankCommands localeCompare query definitions = []).
Proof.
  split; [|split].
  - intros c s. rewrite In_rankCommands, filter_In, in_map_iff. split.
    + intros (Hne & (d & Hd & Hin) & Hs).
      assert (Hc : d = c) by (now injection Hd).
      assert (Hscore : score (scoreCommand (tokenize query) d) = s)
        by (now rewrite Hd).
      subst d. simpl in Hs.
      destruct (scoreCommand_cases (tokenize query) c)
        as [[H1 _]|(H1 & H2 & _)].
      * rewrite Hscore in H1. apply Z.leb_le in Hs. lia.
      * repeat split; auto. congruence.
    + intros (Hin & Hne & Hall & ->).
      destruct (scoreCommand_cases (tokenize query) c)
        as [[_ H2]|(_ & H2 & H3)].
      * exfalso. rewrite Forall_forall in Hall.
        apply Exists_exists in H2. destruct H2 as (t & Ht & E).
        exact (Hall t Ht E).
      * split; [exact Hne|]. split.
        -- exists c. split; [|exact Hin].
           unfold scoreCommand in *. simpl in *. now rewrite H2.
        -- simpl. rewrite <- H2. now apply Z.leb_le.
  - apply tokenize_nil_iff.
  - intro E. unfold rankCommands. now rewrite E.
Qed.

Lemma compareEntries_le (localeCompare : jsstring -> jsstring -> Z)
  (a b : Entry) :
  compareEntries localeCompare a b <= 0
  <-> score b < score a
      \/ (score a = score b
          /\ localeCompare (name (command a)) (name (command b)) <= 0).
Proof.
  unfold compareEntries.
  destruct (Z.eqb_spec (score b) (score a)); simpl; lia.
Qed.

(** Dropping the descriptors that do not match keeps the folded names
    of the remaining entries pairwise distinct. *)
Lemma kept_names_distinct (tokens : list jsstring)
  (definitions : list CommandDefinition) :
  NoDup (map (fun c => toLowerCase (name c)) definitions) ->
  NoDup (map (fun e => toLowerCase (name (command e)))
           (filter (fun entry => 0 <=? score entry)
              (map (scoreCommand tokens) definitions))).
Proof.
  induction definitions as [|d ds IH]; intro Hnames; [constructor|].
  inversion Hnames as [|? ? Hfresh Hrest]; subst.
  cbn [map filter].
  destruct (0 <=? score (scoreCommand tokens d)); [|now apply IH].
  cbn [map]. constructor; [|now apply IH].
  intro Hin. apply Hfresh.
  apply in_map_iff in Hin. destruct Hin as (e & He & Hin).
  apply filter_In in Hin. destruct Hin as [Hin _].
  apply in_map_iff in Hin. destruct Hin as (c & <- & Hc).
  apply in_map_iff. exists c. split; [exact He|exact Hc].
Qed.

Lemma StronglySorted_distinct_keys {A K : Type} (key : A -> K)
  (R R' : A -> A -> Prop) (l : list A) :
  (forall x y, R x y -> key x <> key y -> R' x y) ->
  NoDup (map key l) ->
  StronglySorted R l -> StronglySorted R' l.
Proof.
  intros Himp Hnd Hs. induction Hs as [|a l Hl IH Ha]; [constructor|].
  simpl in Hnd. inversion Hnd as [|? ? Hnotin Hrest]; subst.
  constructor; [auto|].
  rewrite Forall_forall in *. intros y Hy.
  apply Himp; [auto|].
  intro E. apply Hnotin. rewrite E. now apply in_map.
Qed.

(** C2.  With a host collation that is a total preorder and compares
    case after everything else, and descriptors whose names differ even
    when case is ignored, the ranking is sorted: higher score first,
    and at equal scores the case-folded names ascending.  The ranking is
    a function of its inputs. *)
Theorem rankCommands_sorted (localeCompare : jsstring -> jsstring -> Z)
  (query : jsstring) (definitions : list CommandDefinition) :
  (forall a b, localeCompare a b <= 0 \/ localeCompare b a <= 0) ->
  (forall a b c,
     localeCompare a b <= 0 -> localeCompare b c <= 0 ->
     localeCompare a c <= 0) ->
  (forall a b,
     toLowerCase a <> toLowerCase b -> localeCompare a b <= 0 ->
     localeCompare (toLowerCase a) (toLowerCase b) <= 0) ->
  NoDup (map (fun c => toLowerCase (name c)) definitions) ->
  StronglySorted (rankedBefore localeCompare)
    (rankCommands localeCompare query definitions)
  /\ forall query' definitions',
       query' = query -> definitions' = definitions ->
       rankCommands localeCompare query' definitions'
       = rankCommands localeCompare query definitions.
Proof.
  intros Htotal Htrans Hcase Hnames. split.
  - unfold rankCommands. destruct (tokenize query) as [|t ts]; [constructor|].
    set (tokens := t :: ts).
    set (kept := filter (fun entry => 0 <=? score entry)
                   (map (scoreCommand tokens) definitions)).
    apply (StronglySorted_distinct_keys
             (fun e => toLowerCase (name (command e)))
             (fun x y => compareEntries localeCompare x y <= 0)).
    + intros x y Hxy Hkeys. apply compareEntries_le in Hxy.
      unfold rankedBefore. destruct Hxy as [H|[H1 H2]]; [now left|right].
      split; [exact H1|]. now apply Hcase.
    + apply (Permutation_NoDup
               (l := map (fun e => toLowerCase (name (command e))) kept)).
      * apply Permutation_map, Permutation_sym, sortBy_permutation.
      * unfold kept. now apply kept_names_distinct.
    + apply sortBy_sorted.
      * intros a b. rewrite !compareEntries_le.
        destruct (Htotal (name (command a)) (name (command b))); lia.
      * intros a b c. rewrite !compareEntries_le.
        intros [H1|[H1 H1']] [H2|[H2 H2']]; try lia.
        right. split; [lia|]. eapply Htrans; eauto.
  - intros query' definitions' -> ->. reflexivity.
Qed.

(** The sample collation meets the three assumptions on the host's. *)
Lemma lexCompare_total (a b : jsstring) :
  lexCompare a b <= 0 \/ lexCompare b a <= 0.
Proof.
  revert b. induction a as [|x a IH]; intros [|y b]; simpl; try lia.
  destruct (Z.ltb_spec (code x) (code y)), (Z.ltb_spec (code y) (code x));
    try lia.
  apply IH.
Qed.

Lemma lexCompare_transitive (a b c : jsstring) :
  lexCompare a b <= 0 -> lexCompare b c <= 0 -> lexCompare a c <= 0.
Proof.
  revert b c.
  induction a as [|x a IH]; intros [|y b] [|z c]; simpl; try lia.
  destruct (Z.ltb_spec (code x) (code y)), (Z.ltb_spec (code y) (code x)),
    (Z.ltb_spec (code y) (code z)), (Z.ltb_spec (code z) (code y)),
    (Z.ltb_spec (code x) (code z)), (Z.ltb_spec (code z) (code x));
    try lia.
  apply IH.
Qed.

Lemma foldedCompare_case (a b : jsstring) :
  foldedCompare a b <= 0 ->
  foldedCompare (toLowerCase a) (toLowerCase b) <= 0.
Proof.
  unfold foldedCompare. now rewrite !toLowerCase_idempotent.
Qed.

Lemma rankCommands_sorted_witness :
  NoDup (map (fun c => toLowerCase (name c)) [sampleInstall; sampleInit])
  /\ rankCommands foldedCompare (lit "in") [sampleInstall; sampleInit]
     = [mkEntry sampleInit 4; mkEntry sampleInstall 4]
  /\ StronglySorted (rankedBefore foldedCompare)
       (rankCommands foldedCompare (lit "in") [sampleInstall; sampleInit]).
Proof.
  assert (Hnames : NoDup (map (fun c => toLowerCase (name c))
                            [sampleInstall; sampleInit])).
  { repeat constructor; simpl; intuition discriminate. }
  split; [exact Hnames|]. split; [reflexivity|].
  apply (rankCommands_sorted foldedCompare (lit "in")
           [sampleInstall; sampleInit]).
  - intros a b. apply lexCompare_total.
  - intros a b c. apply lexCompare_transitive.
  - intros a b _. apply foldedCompare_case.
  - exact Hnames.
Defined.

(** ** The interactive selector *)

Lemma trimStart_whitespace (s : jsstring) :
  Forall (fun ch => isWhitespace ch = true) s -> trimStart s = [].
Proof.
  induction 1 as [|c s Hc _ IH]; simpl; [reflexivity|]. now rewrite Hc.
Qed.

Lemma trim_whitespace (s : jsstring) :
  Forall (fun ch => isWhitespace ch = true) s -> trim s = [].
Proof.
  intro H. unfold trim. now rewrite (trimStart_whitespace s H).
Qed.

Lemma firstn_min {A : Type} (n : nat) (l : list A) :
  firstn (Nat.min n (length l)) l = firstn n l.
Proof.
  destruct (Nat.le_ge_cases n (length l)) as [H|H].
  - now rewrite Nat.min_l.
  - rewrite Nat.min_r by exact H.
    now rewrite firstn_all, firstn_all2.
Qed.

Section SelectorFacts.
Variable localeCompare : jsstring -> jsstring -> Z.
Variable definitions : list CommandDefinition.

Lemma selectorStep_suggestions (answer : jsstring)
  (suggestions : list Entry) (out : list Event) :
  selectorStep localeCompare definitions AwaitingQuery answer
  = (AwaitingSelection suggestions, out) ->
  suggestions
  = firstn 5 (rankCommands localeCompare (trim answer) definitions).
Proof.
  unfold selectorStep. destruct (trim answer) as [|c t];
    [discriminate|].
  destruct (rankCommands localeCompare (c :: t) definitions)
    as [|e1 [|e2 r]]; try discriminate.
  rewrite firstn_min. intro H. now injection H.
Qed.

(** Whenever the loop waits for a selection, the list it has shown is
    the head of some ranking. *)
Lemma selectorLoop_suggestions (inputs : list jsstring) :
  forall st suggestions out unread,
    selectorLoop localeCompare definitions st inputs
    = (AwaitingSelection suggestions, out, unread) ->
    st = AwaitingSelection suggestions
    \/ exists term,
         suggestions
         = firstn 5 (rankCommands localeCompare term definitions).
Proof.
  induction inputs as [|answer rest IH]; intros st suggestions out unread.
  - destruct st; simpl; intro H; inversion H; subst. now left.
  - destruct st as [|current| |]; cbn [selectorLoop]; try discriminate.
    + destruct (selectorStep localeCompare definitions AwaitingQuery answer)
        as [st' o] eqn:Es.
      destruct (selectorLoop localeCompare definitions st' rest)
        as [[final outs] left'] eqn:El.
      intro H. injection H as -> _ _.
      destruct (IH _ _ _ _ El) as [->|H]; [|right; exact H].
      right. exists (trim answer).
      now apply (selectorStep_suggestions answer suggestions o).
    + destruct (selectorStep localeCompare definitions
                  (AwaitingSelection current) answer) as [st' o] eqn:Es.
      destruct (selectorLoop localeCompare definitions st' rest)
        as [[final outs] left'] eqn:El.
      intro H. injection H as -> _ _.
      destruct (IH _ _ _ _ El) as [->|H]; [|right; exact H].
      exfalso. unfold selectorStep in Es.
      destruct (trim answer); [discriminate|].
      destruct (parseInt _) as [k|]; [|discriminate].
      destruct (_ && _); [|discriminate].
      destruct (nth_error _ _); discriminate.
Qed.

Lemma selectorLoop_app (prefix more : list jsstring) :
  forall st st' out,
    selectorLoop localeCompare definitions st prefix = (st', out, []) ->
    (st' = AwaitingQuery \/ exists s, st' = AwaitingSelection s) ->
    selectorLoop localeCompare definitions st (prefix ++ more)
    = (let '(final, outs, unread) :=
         selectorLoop localeCompare definitions st' more in
       (final, out ++ outs, unread)).
Proof.
  induction prefix as [|answer rest IH]; intros st st' out H Hst'.
  - assert (st = st' /\ out = []) as [-> ->].
    { destruct st; simpl in H; injection H as H1 H2; auto. }
    simpl. now destruct (selectorLoop localeCompare definitions st' more)
      as [[? ?] ?].
  - destruct st as [|current| |]; cbn [selectorLoop app] in H |- *;
      try discriminate.
    + destruct (selectorStep localeCompare definitions AwaitingQuery answer)
        as [st1 o].
      destruct (selectorLoop localeCompare definitions st1 rest)
        as [[final outs] left'] eqn:El.
      injection H as -> <- ->.
      rewrite (IH _ _ _ El Hst').
      destruct (selectorLoop localeCompare definitions st' more)
        as [[? ?] ?].
      cbn [app]. now rewrite app_assoc.
    + destruct (selectorStep localeCompare definitions
                  (AwaitingSelection current) answer) as [st1 o].
      destruct (selectorLoop localeCompare definitions st1 rest)
        as [[final outs] left'] eqn:El.
      injection H as -> <- ->.
      rewrite (IH _ _ _ El Hst').
      destruct (selectorLoop localeCompare definitions st' more)
        as [[? ?] ?].
      cbn [app]. now rewrite app_assoc.
Qed.
End SelectorFacts.

(** C7, as the code has it.  While the selector waits for a selection,
    the list it has shown is the first five entries, at most, of a
    ranking; an answer that parses as an integer between 1 and the
    number of entries shown finishes with the entry of that number; any
    other non-empty answer prints the invalid-selection text and takes
    the selector back to the search prompt. *)
Theorem selection_transitions (localeCompare : jsstring -> jsstring -> Z)
  (definitions : list CommandDefinition) :
  (forall inputs suggestions out unread,
     selectorLoop localeCompare definitions AwaitingQuery inputs
     = (AwaitingSelection suggestions, out, unread) ->
     (length suggestions <= 5)%nat
     /\ exists term,
          suggestions
          = firstn 5 (rankCommands localeCompare term definitions))
  /\ (forall suggestions answer selection,
        parseInt (trim answer) = Some selection ->
        1 <= selection <= Z.of_nat (length suggestions) ->
        exists entry,
          nth_error suggestions (Z.to_nat (selection - 1)) = Some entry
          /\ selectorStep localeCompare definitions
               (AwaitingSelection suggestions) answer
             = (Done (command entry), []))
  /\ (forall suggestions answer,
        trim answer <> [] ->
        (forall selection,
           parseInt (trim answer) = Some selection ->
           ~ 1 <= selection <= Z.of_nat (length suggestions)) ->
        selectorStep localeCompare definitions
          (AwaitingSelection suggestions) answer
        = (AwaitingQuery, [Log invalidSelectionText])).
Proof.
  split; [|split].
  - intros inputs suggestions out unread H.
    destruct (selectorLoop_suggestions localeCompare definitions
                inputs _ _ _ _ H) as [E|[term E]]; [discriminate|].
    split; [|exists term; exact E].
    rewrite E. apply firstn_le_length.
  - intros suggestions answer selection Hparse Hrange.
    assert (Hnth : exists entry,
               nth_error suggestions (Z.to_nat (selection - 1)) = Some entry).
    { destruct (nth_error suggestions (Z.to_nat (selection - 1))) eqn:E;
        [eauto|].
      apply nth_error_None in E. lia. }
    destruct Hnth as [entry Hnth]. exists entry. split; [exact Hnth|].
    unfold selectorStep. destruct (trim answer) as [|c t] eqn:Et.
    + discriminate.
    + rewrite Hparse.
      destruct (Z.leb_spec 1 selection); [|lia].
      destruct (Z.leb_spec selection (Z.of_nat (length suggestions))); [|lia].
      simpl. now rewrite Hnth.
  - intros suggestions answer Hne Hbad.
    unfold selectorStep. destruct (trim answer) as [|c t] eqn:Et;
      [contradiction|].
    destruct (parseInt (c :: t)) as [selection|]; [|reflexivity].
    specialize (Hbad selection eq_refl).
    destruct (Z.leb_spec 1 selection);
      destruct (Z.leb_spec selection (Z.of_nat (length suggestions)));
      simpl; try reflexivity.
    lia.
Qed.

Lemma selection_transitions_witness :
  (selectorLoop foldedCompare [sampleInit; sampleInstall] AwaitingQuery
     [lit "in"]
   = (AwaitingSelection [mkEntry sampleInit 4; mkEntry sampleInstall 4],
      [Question searchPrompt (lit "in");
       Log []; Log (lit "Matches:");
       Log (lit "  1. init  Create manifest");
       Log (lit "  2. install  Install deps");
       Log []],
      [])
   /\ parseInt (trim (lit " 2 ")) = Some 2
   /\ 1 <= 2 <= 2)
  /\ selectorStep foldedCompare [sampleInit; sampleInstall]
       (AwaitingSelection [mkEntry sampleInit 4; mkEntry sampleInstall 4])
       (lit " 2 ")
     = (Done sampleInstall, []).
Proof.
  split; [repeat split; discriminate|].
  destruct (selection_transitions foldedCompare [sampleInit; sampleInstall])
    as (_ & Hpick & _).
  assert (Hrange : 1 <= 2 <= 2) by lia.
  destruct (Hpick [mkEntry sampleInit 4; mkEntry sampleInstall 4]
              (lit " 2 ") 2 eq_refl Hrange) as (entry & Hentry & Hstep).
  injection Hentry as <-. exact Hstep.
Defined.

(** C7 as written fails on its last part: after an invalid selection
    the loop starts over at the search prompt, so the next line is read
    as a query and not as a selection. *)
Lemma selection_counterexample :
  let suggestions := [mkEntry sampleInit 4; mkEntry sampleInstall 4] in
  fst (selectorStep foldedCompare [sampleInit; sampleInstall]
         AwaitingQuery (lit "in"))
  = AwaitingSelection suggestions
  /\ trim (lit "9") <> []
  /\ selectorStep foldedCompare [sampleInit; sampleInstall]
       (AwaitingSelection suggestions) (lit "9")
     = (AwaitingQuery, [Log invalidSelectionText])
  /\ (forall shown,
        fst (selectorStep foldedCompare [sampleInit; sampleInstall]
               (AwaitingSelection suggestions) (lit "9"))
        <> AwaitingSelection shown)
  /\ fst (fst (selectorLoop foldedCompare [sampleInit; sampleInstall]
                 AwaitingQuery [lit "in"; lit "9"; lit "1"]))
     = AwaitingQuery.
Proof.
  cbv zeta. repeat split; try discriminate.
Qed.

(** C8.  Whatever was typed before, an empty or all-blank answer at the
    search prompt ends the session: the selector is cancelled, nothing
    more is read, and [promptForCommand] returns no selection. *)
Theorem empty_query_cancels (localeCompare : jsstring -> jsstring -> Z)
  (definitions : list CommandDefinition)
  (earlier : list jsstring) (answer : jsstring) (later : list jsstring)
  (out : list Event) :
  selectorLoop localeCompare definitions AwaitingQuery earlier
  = (AwaitingQuery, out, []) ->
  Forall (fun ch => isWhitespace ch = true) answer ->
  selectorStep localeCompare definitions AwaitingQuery answer = (Cancelled, [])
  /\ selectorLoop localeCompare definitions AwaitingQuery
       (earlier ++ answer :: later)
     = (Cancelled, out ++ [Question searchPrompt answer], later)
  /\ fst (fst (promptForCommand localeCompare definitions
                 (earlier ++ answer :: later)))
     = Resolved None.
Proof.
  intros Hearlier Hblank.
  assert (Hstep : selectorStep localeCompare definitions AwaitingQuery answer
                  = (Cancelled, [])).
  { unfold selectorStep. now rewrite (trim_whitespace answer Hblank). }
  assert (Hloop : selectorLoop localeCompare definitions AwaitingQuery
                    (earlier ++ answer :: later)
                  = (Cancelled, out ++ [Question searchPrompt answer], later)).
  { rewrite (selectorLoop_app localeCompare definitions earlier
               (answer :: later) AwaitingQuery AwaitingQuery out Hearlier)
      by (now left).
    cbn [selectorLoop]. rewrite Hstep.
    destruct later; reflexivity. }
  split; [exact Hstep|]. split; [exact Hloop|].
  unfold promptForCommand. destruct definitions as [|d ds]; [reflexivity|].
  now rewrite Hloop.
Qed.

Lemma empty_query_cancels_witness :
  (selectorLoop foldedCompare [sampleInit; sampleInstall] AwaitingQuery
     [lit "zz"; lit "in"; lit ""]
   = (AwaitingQuery,
      [Question searchPrompt (lit "zz"); Log noMatchText;
       Question searchPrompt (lit "in");
       Log []; Log (lit "Matches:");
       Log (lit "  1. init  Create manifest");
       Log (lit "  2. install  Install deps");
       Log [];
       Question selectPrompt (lit "")],
      [])
   /\ Forall (fun ch => isWhitespace ch = true) (lit "  "))
  /\ fst (fst (promptForCommand foldedCompare [sampleInit; sampleInstall]
                 ([lit "zz"; lit "in"; lit ""] ++ lit "  " :: [lit "init"])))
     = Resolved None.
Proof.
  assert (H1 : selectorLoop foldedCompare [sampleInit; sampleInstall]
                 AwaitingQuery [lit "zz"; lit "in"; lit ""]
               = (AwaitingQuery,
                  [Question searchPrompt (lit "zz"); Log noMatchText;
                   Question searchPrompt (lit "in");
                   Log []; Log (lit "Matches:");
                   Log (lit "  1. init  Create manifest");
                   Log (lit "  2. install  Install deps");
                   Log [];
                   Question selectPrompt (lit "")],
                  [])) by reflexivity.
  assert (H2 : Forall (fun ch => isWhitespace ch = true) (lit "  ")).
  { repeat constructor. }
  split; [split; [exact H1|exact H2]|].
  exact (proj2 (proj2 (empty_query_cancels foldedCompare
                         [sampleInit; sampleInstall]
                         [lit "zz"; lit "in"; lit ""] (lit "  ")
                         [lit "init"] _ H1 H2))).
Defined.

(** C10.  With an empty registry [promptForCommand] returns no
    selection at once: no line is printed, the readline interface is
    not created and no answer is read. *)
Theorem promptForCommand_empty_registry
  (localeCompare : jsstring -> jsstring -> Z) (inputs : list jsstring) :
  promptForCommand localeCompare [] inputs = (Resolved None, [], inputs)
  /\ ~ In CreateInterface
         (snd (fst (promptForCommand localeCompare [] inputs)))
  /\ forall env,
       stdinIsTTY env = true -> stdoutIsTTY env = true ->
       main localeCompare [] env [] = mkProcess [] None Normal.
Proof.
  split; [reflexivity|]. split; [simpl; tauto|].
  intros env Hin Hout. unfold main, mainBody. rewrite Hin, Hout. reflexivity.
Qed.

Lemma promptForCommand_empty_registry_witness :
  (stdinIsTTY (terminalEnvironment [lit "init"]) = true
   /\ stdoutIsTTY (terminalEnvironment [lit "init"]) = true)
  /\ main foldedCompare [] (terminalEnvironment [lit "init"]) []
     = mkProcess [] None Normal.
Proof.
  split; [split; reflexivity|].
  exact (proj2 (proj2 (promptForCommand_empty_registry foldedCompare
                         [lit "init"]))
           (terminalEnvironment [lit "init"]) eq_refl eq_refl).
Defined.

(** ** The dispatcher *)

(** C9.  [main] never ends by throwing.  When the command it resolves,
    from the first argument or from the interactive selector, throws
    from its [run], [main] prints the error text with one call of
    [console.error], after whatever [run] had printed, sets the exit
    code to 1 and returns. *)
Theorem main_catches_run_errors (localeCompare : jsstring -> jsstring -> Z)
  (registry : list CommandDefinition) (env : Environment) :
  (forall args error,
     completion (main localeCompare registry env args) <> Throw error)
  /\ (forall commandName commandArgs c error,
        ((length (commandName :: commandArgs) =? 1)%nat
         && (isVersionFlag commandName || isHelpFlag commandName)) = false ->
        commandName <> lit "help" ->
        findCommand registry commandName = Some c ->
        existsb isHelpFlag commandArgs = false ->
        runThrown (run c commandArgs) = Some error ->
        main localeCompare registry env (commandName :: commandArgs)
        = mkProcess
            (runEvents (run c commandArgs) ++ [ErrLog (errorText error)])
            (Some 1) Normal)
  /\ (forall c out unread error,
        stdinIsTTY env = true -> stdoutIsTTY env = true ->
        promptForCommand localeCompare registry (typed env)
        = (Resolved (Some c), out, unread) ->
        runThrown (run c []) = Some error ->
        main localeCompare registry env []
        = mkProcess
            (out ++ runEvents (run c []) ++ [ErrLog (errorText error)])
            (Some 1) Normal).
Proof.
  split; [|split].
  - intros args error. unfold main.
    destruct (completion (mainBody localeCompare registry env args)) eqn:E;
      simpl; try rewrite E; discriminate.
  - intros commandName commandArgs c error Hflag Hhelp Hfind Hno Hrun.
    unfold main, mainBody.
    apply andb_false_iff in Hflag.
    assert (Hv : ((length (commandName :: commandArgs) =? 1)%nat
                  && isVersionFlag commandName) = false).
    { destruct Hflag as [->|H]; [reflexivity|].
      apply orb_false_iff in H. destruct H as [-> _].
      apply andb_false_r. }
    assert (Hh : ((length (commandName :: commandArgs) =? 1)%nat
                  && isHelpFlag commandName) = false).
    { destruct Hflag as [->|H]; [reflexivity|].
      apply orb_false_iff in H. destruct H as [_ ->].
      apply andb_false_r. }
    rewrite Hv, Hh.
    apply jsstring_eqb_neq in Hhelp. rewrite Hhelp, Hfind, Hno.
    unfold executeCommand. rewrite Hrun. reflexivity.
  - intros c out unread error Hin Hout Hprompt Hrun.
    unfold main, mainBody. rewrite Hin, Hout, Hprompt. simpl.
    unfold executeCommand. rewrite Hrun. simpl.
    now rewrite <- app_assoc.
Qed.

Lemma main_catches_run_errors_witness :
  (findCommand (commands missingPackage) (lit "INIT")
   = Some (initCommand missingPackage)
   /\ runThrown (run (initCommand missingPackage) [lit "now"])
      = Some (ErrorObject (lit "Unexpected arguments for init: now")))
  /\ main foldedCompare (commands missingPackage) (terminalEnvironment [])
       [lit "INIT"; lit "now"]
     = mkProcess [ErrLog (lit "Unexpected arguments for init: now")]
         (Some 1) Normal.
Proof.
  split; [split; reflexivity|].
  destruct (main_catches_run_errors foldedCompare (commands missingPackage)
              (terminalEnvironment [])) as (_ & Hdirect & _).
  assert (Hhelp : lit "INIT" <> lit "help") by discriminate.
  exact (Hdirect (lit "INIT") [lit "now"] (initCommand missingPackage)
           (ErrorObject (lit "Unexpected arguments for init: now"))
           eq_refl Hhelp eq_refl eq_refl eq_refl).
Defined.

Lemma rankCommands_membership_witness :
  tokenize (lit "  ") = []
  /\ rankCommands foldedCompare (lit "  ") [sampleInit; sampleInstall] = []
  /\ In (mkEntry sampleInstall 7)
        (rankCommands foldedCompare (lit "De  IN")
           [sampleInit; sampleInstall]).
Proof.
  destruct (rankCommands_membership foldedCompare (lit "  ")
              [sampleInit; sampleInstall]) as (_ & _ & Hnone).
  destruct (rankCommands_membership foldedCompare (lit "De  IN")
              [sampleInit; sampleInstall]) as (Hin & _ & _).
  split; [reflexivity|]. split; [exact (Hnone eq_refl)|].
  apply Hin. split; [right; left; reflexivity|].
  split; [discriminate|]. split; [|reflexivity].
  repeat constructor; discriminate.
Defined.

(** The same handler serves the interactive path: the only ranked
    command is run without arguments and its failure is reported. *)
Example main_interactive_failure :
  main foldedCompare (commands missingPackage)
    (terminalEnvironment [lit " ini "]) []
  = mkProcess
      [Log (lit "Available commands:");
       Log (lit "  init  Create Taskfile.yml with dev task running bun dev");
       Log (newline ++ lit "Type to filter commands. Press Enter to cancel."
            ++ newline);
       CreateInterface;
       Question searchPrompt (lit " ini ");
       CloseInterface;
       ErrLog (lit "package.json not found in the current directory.")]
      (Some 1) Normal.
Proof. reflexivity. Qed.

Example main_unknown_command :
  main foldedCompare (commands missingPackage) (terminalEnvironment [])
    [lit "help"; lit "int"]
  = mkProcess
      [ErrLog (lit "Unknown command: int");
       ErrLog (lit "Did you mean " ++ [fromCode 34] ++ lit "init"
               ++ [fromCode 34] ++ lit "?")]
      (Some 1) Normal.
Proof. reflexivity. Qed.

(** * Further properties of the matcher *)

Lemma removeWhitespace_toLowerCase (s : jsstring) :
  removeWhitespace (toLowerCase s) = toLowerCase (removeWhitespace s).
Proof.
  unfold removeWhitespace, toLowerCase.
  induction s as [|c s IH]; simpl; [reflexivity|].
  rewrite isWhitespace_toLowerChar.
  destruct (isWhitespace c); simpl; now rewrite IH.
Qed.

Lemma removeWhitespace_idempotent (s : jsstring) :
  removeWhitespace (removeWhitespace s) = removeWhitespace s.
Proof.
  apply removeWhitespace_id, removeWhitespace_noWhitespace.
Qed.

Lemma normalizeQuery_app (q r : jsstring) :
  normalizeQuery (q ++ r) = normalizeQuery q ++ normalizeQuery r.
Proof.
  unfold normalizeQuery, removeWhitespace, toLowerCase.
  now rewrite map_app, filter_app.
Qed.

Lemma normalizeQuery_idempotent (q : jsstring) :
  normalizeQuery (normalizeQuery q) = normalizeQuery q.
Proof.
  apply normalizeQuery_id;
    [apply normalizeQuery_lower|apply removeWhitespace_noWhitespace].
Qed.

(** X1.  The score depends on the query only through its normal form:
    changing the case of the query, or adding and removing white space
    anywhere in it, changes nothing. *)
Theorem fuzzyScore_query_normal_form (query candidate : jsstring) :
  fuzzyScore (toLowerCase query) candidate = fuzzyScore query candidate
  /\ fuzzyScore (removeWhitespace query) candidate
     = fuzzyScore query candidate
  /\ forall other,
       normalizeQuery other = normalizeQuery query ->
       fuzzyScore other candidate = fuzzyScore query candidate.
Proof.
  assert (H : forall other,
            normalizeQuery other = normalizeQuery query ->
            fuzzyScore other candidate = fuzzyScore query candidate).
  { intros other E. unfold fuzzyScore. now rewrite E. }
  split; [|split; [|exact H]]; apply H; unfold normalizeQuery.
  - now rewrite toLowerCase_idempotent.
  - now rewrite removeWhitespace_toLowerCase, removeWhitespace_idempotent,
      <- removeWhitespace_toLowerCase.
Qed.

Lemma fuzzyScore_query_normal_form_witness :
  normalizeQuery (lit "I n IT") = normalizeQuery (lit "init")
  /\ fuzzyScore (lit "I n IT") (lit "init create")
     = fuzzyScore (lit "init") (lit "init create").
Proof.
  split; [reflexivity|].
  exact (proj2 (proj2 (fuzzyScore_query_normal_form (lit "init")
                         (lit "init create")))
           (lit "I n IT") eq_refl).
Defined.

(** The candidate is compared as it is: a query unit is found only at a
    unit of the candidate that is already lower case. *)
Lemma Subsequence_incl (q l : jsstring) :
  Subsequence q l -> forall ch, In ch q -> In ch l.
Proof.
  induction 1 as [l|c q l _ IH|c q l _ IH]; intros ch Hch.
  - destruct Hch.
  - destruct Hch as [->|Hch]; [now left|right; auto].
  - right. auto.
Qed.

Lemma isLowerCase_In (s : jsstring) (ch : ascii) :
  isLowerCase s -> In ch s -> toLowerChar ch = ch.
Proof.
  induction s as [|c s IH]; intros Hs Hin; [destruct Hin|].
  apply isLowerCase_cons in Hs. destruct Hs as [Hc Hs].
  destruct Hin as [<-|Hin]; auto.
Qed.

(** X2.  [fuzzyScore] never folds the candidate.  A candidate in which
    no unit is its own lower case, such as a word in capitals, matches
    no query at all. *)
Theorem fuzzyScore_candidate_not_folded (query candidate : jsstring) :
  (forall ch, In ch candidate -> toLowerChar ch <> ch) ->
  fuzzyScore query candidate = -1.
Proof.
  intro Hcaps.
  destruct (fuzzyScore_cases query candidate) as [[H _]|(Hne & Hsub & _)];
    [exact H|].
  exfalso. destruct (normalizeQuery query) as [|c q] eqn:E; [contradiction|].
  assert (Hc : toLowerChar c = c).
  { apply (isLowerCase_In (c :: q)); [|now left].
    rewrite <- E. apply normalizeQuery_lower. }
  apply (Hcaps c); [|exact Hc].
  apply (Subsequence_incl (c :: q) candidate Hsub). now left.
Qed.

Lemma fuzzyScore_candidate_not_folded_witness :
  (forall ch, In ch (lit "INIT") -> toLowerChar ch <> ch)
  /\ fuzzyScore (lit "init") (lit "INIT") = -1.
Proof.
  assert (H : forall ch, In ch (lit "INIT") -> toLowerChar ch <> ch).
  { intros ch Hin. simpl in Hin.
    repeat (destruct Hin as [<-|Hin]; [vm_compute; discriminate|]).
    destruct Hin. }
  split; [exact H|].
  exact (fuzzyScore_candidate_not_folded (lit "init") (lit "INIT") H).
Defined.

Lemma indexOfAux_app (target : ascii) (s ext : jsstring) (i : Z) :
  indexOfAux target s i <> -1 ->
  indexOfAux target (s ++ ext) i = indexOfAux target s i.
Proof.
  revert i. induction s as [|x s IH]; intros i H; simpl in *.
  - contradiction.
  - destruct (Ascii.eqb x target); [reflexivity|]. now apply IH.
Qed.

Lemma indexOf_app (s ext : jsstring) (target : ascii) (i : Z) :
  0 <= i <= Z.of_nat (length s) ->
  indexOf s target i <> -1 ->
  indexOf (s ++ ext) target i = indexOf s target i.
Proof.
  intros Hi. unfold indexOf. rewrite length_app.
  replace (Z.min (Z.max i 0) (Z.of_nat (length s))) with i by lia.
  replace (Z.min (Z.max i 0) (Z.of_nat (length s + length ext)))
    with i by lia.
  rewrite skipn_app.
  replace (Z.to_nat i - length s)%nat with 0%nat by lia.
  simpl skipn. apply indexOfAux_app.
Qed.

Lemma fuzzyLoop_candidate_app (q candidate ext : jsstring) :
  forall acc i,
    0 <= i <= Z.of_nat (length candidate) ->
    fuzzyLoop q candidate acc i <> -1 ->
    fuzzyLoop q (candidate ++ ext) acc i = fuzzyLoop q candidate acc i.
Proof.
  induction q as [|c q IH]; intros acc i Hi H; simpl in *; [reflexivity|].
  destruct (indexOf_cases candidate (toLowerChar c) i Hi)
    as [[H1 _]|(pre & _ & _ & H3 & H4)].
  - rewrite H1 in H. simpl in H. contradiction.
  - assert (Hfound : indexOf candidate (toLowerChar c) i <> -1) by lia.
    rewrite (indexOf_app candidate ext (toLowerChar c) i Hi Hfound).
    destruct (indexOf candidate (toLowerChar c) i =? -1); [reflexivity|].
    apply IH; [lia|exact H].
Qed.

(** X3.  Text added after the candidate never changes a match: a query
    that scores against a text gets the same score against any
    extension of that text. *)
Theorem fuzzyScore_candidate_extension (query candidate ext : jsstring) :
  fuzzyScore query candidate <> -1 ->
  fuzzyScore query (candidate ++ ext) = fuzzyScore query candidate.
Proof.
  unfold fuzzyScore. destruct (normalizeQuery query) as [|c q];
    [reflexivity|].
  apply fuzzyLoop_candidate_app. lia.
Qed.

Lemma fuzzyScore_candidate_extension_witness :
  fuzzyScore (lit "it") (lit "init") <> -1
  /\ fuzzyScore (lit "it") (lit "init" ++ lit " it it")
     = fuzzyScore (lit "it") (lit "init").
Proof.
  assert (H : fuzzyScore (lit "it") (lit "init") <> -1)
    by (vm_compute; discriminate).
  split; [exact H|].
  exact (fuzzyScore_candidate_extension (lit "it") (lit "init")
           (lit " it it") H).
Defined.

Lemma fuzzyLoop_ge (q candidate : jsstring) :
  forall acc i,
    0 <= acc ->
    fuzzyLoop q candidate acc i <> -1 ->
    acc <= fuzzyLoop q candidate acc i.
Proof.
  induction q as [|c q IH]; intros acc i Hacc H; simpl in *; [lia|].
  destruct (indexOf candidate (toLowerChar c) i =? -1); [contradiction|].
  destruct (indexOf candidate (toLowerChar c) i =? i).
  - specialize (IH (acc + 2) _ ltac:(lia) H). lia.
  - specialize (IH (acc + 1) _ ltac:(lia) H). lia.
Qed.

Lemma fuzzyLoop_query_app (a b candidate : jsstring) :
  forall acc i,
    0 <= acc ->
    fuzzyLoop (a ++ b) candidate acc i <> -1 ->
    fuzzyLoop a candidate acc i <> -1
    /\ fuzzyLoop a candidate acc i <= fuzzyLoop (a ++ b) candidate acc i.
Proof.
  induction a as [|c a IH]; intros acc i Hacc H; simpl in *.
  - split; [lia|]. now apply fuzzyLoop_ge.
  - destruct (indexOf candidate (toLowerChar c) i =? -1); [contradiction|].
    destruct (indexOf candidate (toLowerChar c) i =? i);
      apply IH; try lia; exact H.
Qed.

(** X4.  Typing more never brings a rejected candidate back and never
    lowers the score of one that stays: when the longer query matches,
    a non-blank beginning of it matches too, with a score that is not
    higher. *)
Theorem fuzzyScore_longer_query (query more candidate : jsstring) :
  normalizeQuery query <> [] ->
  fuzzyScore (query ++ more) candidate <> -1 ->
  fuzzyScore query candidate <> -1
  /\ fuzzyScore query candidate <= fuzzyScore (query ++ more) candidate.
Proof.
  unfold fuzzyScore. rewrite normalizeQuery_app.
  destruct (normalizeQuery query) as [|c q] eqn:E; [contradiction|].
  intros _ H. cbn [app] in H |- *.
  change (c :: q ++ normalizeQuery more)
    with ((c :: q) ++ normalizeQuery more) in *.
  apply fuzzyLoop_query_app; [lia|exact H].
Qed.

Lemma fuzzyScore_longer_query_witness :
  (normalizeQuery (lit "in") <> []
   /\ fuzzyScore (lit "in" ++ lit "st") (lit "install") <> -1)
  /\ fuzzyScore (lit "in") (lit "install") <> -1
  /\ fuzzyScore (lit "in") (lit "install")
     <= fuzzyScore (lit "in" ++ lit "st") (lit "install").
Proof.
  assert (H1 : normalizeQuery (lit "in") <> []) by discriminate.
  assert (H2 : fuzzyScore (lit "in" ++ lit "st") (lit "install") <> -1)
    by (vm_compute; discriminate).
  split; [split; [exact H1|exact H2]|].
  exact (fuzzyScore_longer_query (lit "in") (lit "st") (lit "install") H1 H2).
Defined.

(** * Further properties of the resolver *)

Lemma splitAux_concat (s cur : jsstring) (inSep : bool) :
  (inSep = true -> cur = []) ->
  concat (splitAux s cur inSep) = rev cur ++ removeWhitespace s.
Proof.
  revert cur inSep. induction s as [|c s IH]; intros cur inSep Hinv; simpl.
  - now rewrite app_nil_r.
  - unfold removeWhitespace. cbn [filter]. fold (removeWhitespace s).
    destruct (isWhitespace c) eqn:Ec; cbn [negb].
    + destruct inSep.
      * rewrite (Hinv eq_refl). now rewrite IH.
      * cbn [concat]. rewrite IH by reflexivity. reflexivity.
    + rewrite IH by discriminate. cbn [rev]. now rewrite <- app_assoc.
Qed.

Lemma splitAux_pieces (P : ascii -> Prop) (s cur : jsstring) (inSep : bool) :
  Forall P cur ->
  Forall (fun ch => isWhitespace ch = false -> P ch) s ->
  Forall (Forall P) (splitAux s cur inSep).
Proof.
  revert cur inSep. induction s as [|c s IH]; intros cur inSep Hcur Hs; simpl.
  - constructor; [|constructor]. now apply Forall_rev.
  - inversion Hs as [|? ? Hc Hrest]; subst.
    destruct (isWhitespace c) eqn:Ec.
    + destruct inSep; [now apply IH|].
      constructor; [now apply Forall_rev|now apply IH].
    + apply IH; [|exact Hrest]. constructor; auto.
Qed.

Lemma concat_nonempty (pieces : list jsstring) :
  concat (filter (fun token => 0 <? Z.of_nat (length token)) pieces)
  = concat pieces.
Proof.
  induction pieces as [|p pieces IH]; simpl; [reflexivity|].
  destruct p as [|c p]; simpl; [exact IH|]. now rewrite IH.
Qed.

Lemma isLowerCase_Forall (s : jsstring) :
  isLowerCase s <-> Forall (fun ch => toLowerChar ch = ch) s.
Proof.
  induction s as [|c s IH].
  - split; [constructor|reflexivity].
  - rewrite isLowerCase_cons, IH. split.
    + intros [H1 H2]. now constructor.
    + intro H. now inversion H.
Qed.

Lemma tokenize_wellformed (query : jsstring) :
  Forall (fun token =>
            token <> [] /\ isLowerCase token /\ noWhitespace token)
         (tokenize query).
Proof.
  unfold tokenize, splitWhitespace. rewrite Forall_forall.
  intros token Hin. apply filter_In in Hin. destruct Hin as [Hin Hlen].
  split; [|split].
  - intro E. subst token. discriminate.
  - apply isLowerCase_Forall.
    assert (H : Forall (Forall (fun ch => toLowerChar ch = ch))
                  (splitAux (toLowerCase query) [] false)).
    { apply splitAux_pieces; [constructor|].
      unfold toLowerCase. rewrite Forall_map. apply Forall_forall.
      intros ch _ _. apply toLowerChar_idempotent. }
    rewrite Forall_forall in H. now apply H.
  - assert (H : Forall (Forall (fun ch => isWhitespace ch = false))
                  (splitAux (toLowerCase query) [] false)).
    { apply splitAux_pieces; [constructor|]. apply Forall_forall. auto. }
    rewrite Forall_forall in H. now apply H.
Qed.

Lemma tokenize_concat (query : jsstring) :
  concat (tokenize query) = normalizeQuery query.
Proof.
  unfold tokenize, splitWhitespace.
  rewrite concat_nonempty, splitAux_concat by discriminate.
  reflexivity.
Qed.

(** X5.  The tokens of a query are non-empty, lower case and free of
    white space, and put end to end they give back the normal form of
    the query: splitting loses nothing but the white space. *)
Theorem tokenize_tokens (query : jsstring) :
  Forall (fun token =>
            token <> [] /\ isLowerCase token /\ noWhitespace token)
         (tokenize query)
  /\ concat (tokenize query) = normalizeQuery query.
Proof.
  split; [apply tokenize_wellformed|apply tokenize_concat].
Qed.

Lemma tokens_separator_flag (s : jsstring) :
  filter (fun token => 0 <? Z.of_nat (length token)) (splitAux s [] true)
  = filter (fun token => 0 <? Z.of_nat (length token)) (splitAux s [] false).
Proof.
  destruct s as [|c s]; simpl; [reflexivity|].
  destruct (isWhitespace c); reflexivity.
Qed.

Lemma tokens_strip_left (blank s : jsstring) :
  Forall (fun ch => isWhitespace ch = true) blank ->
  filter (fun token => 0 <? Z.of_nat (length token))
    (splitAux (blank ++ s) [] false)
  = filter (fun token => 0 <? Z.of_nat (length token)) (splitAux s [] false).
Proof.
  induction 1 as [|c blank Hc _ IH]; simpl; [reflexivity|].
  rewrite Hc. simpl. now rewrite tokens_separator_flag.
Qed.

Lemma tokens_blank (blank cur : jsstring) (inSep : bool) :
  Forall (fun ch => isWhitespace ch = true) blank ->
  (inSep = true -> cur = []) ->
  filter (fun token => 0 <? Z.of_nat (length token))
    (splitAux blank cur inSep)
  = filter (fun token => 0 <? Z.of_nat (length token)) [rev cur].
Proof.
  intro H. revert cur inSep.
  induction H as [|c blank Hc _ IH]; intros cur inSep Hinv; simpl;
    [reflexivity|].
  rewrite Hc. destruct inSep.
  - rewrite (Hinv eq_refl). now rewrite IH.
  - cbn [filter]. rewrite IH by reflexivity. simpl.
    destruct (0 <? Z.of_nat (length (rev cur))); reflexivity.
Qed.

Lemma tokens_strip_right (blank s : jsstring) :
  Forall (fun ch => isWhitespace ch = true) blank ->
  forall cur inSep,
    (inSep = true -> cur = []) ->
    filter (fun token => 0 <? Z.of_nat (length token))
      (splitAux (s ++ blank) cur inSep)
    = filter (fun token => 0 <? Z.of_nat (length token))
        (splitAux s cur inSep).
Proof.
  intro Hblank. induction s as [|c s IH]; intros cur inSep Hinv.
  - cbn [app]. rewrite tokens_blank by assumption. reflexivity.
  - cbn [app splitAux]. destruct (isWhitespace c).
    + destruct inSep; [now apply IH|].
      cbn [filter]. now rewrite IH.
    + apply IH. discriminate.
Qed.

Lemma trimStart_decompose (s : jsstring) :
  exists blank,
    s = blank ++ trimStart s
    /\ Forall (fun ch => isWhitespace ch = true) blank.
Proof.
  induction s as [|c s (blank & E & Hblank)]; simpl.
  - exists []. auto.
  - destruct (isWhitespace c) eqn:Ec.
    + exists (c :: blank). split; [simpl; congruence|now constructor].
    + exists []. auto.
Qed.

Lemma trim_decompose (s : jsstring) :
  exists before after,
    s = before ++ trim s ++ after
    /\ Forall (fun ch => isWhitespace ch = true) before
    /\ Forall (fun ch => isWhitespace ch = true) after.
Proof.
  destruct (trimStart_decompose s) as (before & E1 & H1).
  destruct (trimStart_decompose (rev (trimStart s))) as (tail & E2 & H2).
  exists before, (rev tail). repeat split; [|exact H1|now apply Forall_rev].
  unfold trim. rewrite <- rev_app_distr, <- E2, rev_involutive. exact E1.
Qed.

Lemma toLowerCase_blank (blank : jsstring) :
  Forall (fun ch => isWhitespace ch = true) blank ->
  Forall (fun ch => isWhitespace ch = true) (toLowerCase blank).
Proof.
  intro H. unfold toLowerCase. rewrite Forall_map.
  eapply Forall_impl; [|exact H].
  intros ch Hch. cbv beta. now rewrite isWhitespace_toLowerChar.
Qed.

Lemma tokenize_trim (query : jsstring) :
  tokenize (trim query) = tokenize query.
Proof.
  destruct (trim_decompose query) as (before & after & E & H1 & H2).
  unfold tokenize, splitWhitespace. rewrite E at 2.
  unfold toLowerCase. rewrite !map_app. fold (toLowerCase before).
  fold (toLowerCase after). fold (toLowerCase (trim query)).
  rewrite tokens_strip_left by now apply toLowerCase_blank.
  rewrite tokens_strip_right;
    [reflexivity|now apply toLowerCase_blank|discriminate].
Qed.

Lemma tokenize_toLowerCase (query : jsstring) :
  tokenize (toLowerCase query) = tokenize query.
Proof.
  unfold tokenize. now rewrite toLowerCase_idempotent.
Qed.

(** X6.  The ranking looks at the query through its tokens only.
    Changing the case of the query, or trimming it as the selector
    does, leaves the ranking as it is. *)
Theorem rankCommands_query_spelling
  (localeCompare : jsstring -> jsstring -> Z)
  (query : jsstring) (definitions : list CommandDefinition) :
  rankCommands localeCompare (trim query) definitions
  = rankCommands localeCompare query definitions
  /\ rankCommands localeCompare (toLowerCase query) definitions
     = rankCommands localeCompare query definitions
  /\ forall other,
       tokenize other = tokenize query ->
       rankCommands localeCompare other definitions
       = rankCommands localeCompare query definitions.
Proof.
  assert (H : forall other,
            tokenize other = tokenize query ->
            rankCommands localeCompare other definitions
            = rankCommands localeCompare query definitions).
  { intros other E. unfold rankCommands. now rewrite E. }
  split; [|split; [|exact H]]; apply H.
  - apply tokenize_trim.
  - apply tokenize_toLowerCase.
Qed.

Lemma rankCommands_query_spelling_witness :
  tokenize (lit "  IN  de ") = tokenize (lit "in de")
  /\ rankCommands foldedCompare (lit "  IN  de ") [sampleInit; sampleInstall]
     = rankCommands foldedCompare (lit "in de") [sampleInit; sampleInstall].
Proof.
  split; [reflexivity|].
  exact (proj2 (proj2 (rankCommands_query_spelling foldedCompare
                         (lit "in de") [sampleInit; sampleInstall]))
           (lit "  IN  de ") eq_refl).
Defined.

Lemma token_scores_bounds (tokens : list jsstring) (searchText : jsstring) :
  Forall (fun token => isLowerCase token /\ noWhitespace token) tokens ->
  Forall (fun token => fuzzyScore token searchText <> -1) tokens ->
  Z.of_nat (length (concat tokens))
  <= sumZ (map (fun token => fuzzyScore token searchText) tokens)
  <= 2 * Z.of_nat (length (concat tokens)).
Proof.
  unfold sumZ.
  induction tokens as [|t tokens IH]; intros Hwf Hall;
    cbn [concat map fold_right length]; [lia|].
  inversion Hwf as [|? ? [Hlow Hws] Hwf']; subst.
  inversion Hall as [|? ? Ht Hall']; subst.
  specialize (IH Hwf' Hall').
  destruct (fuzzyScore_cases t searchText) as [[E _]|(_ & _ & Hb)];
    [contradiction|].
  rewrite (normalizeQuery_id t Hlow Hws) in Hb.
  rewrite length_app. lia.
Qed.

Lemma ranked_entry (localeCompare : jsstring -> jsstring -> Z)
  (query : jsstring) (definitions : list CommandDefinition) (e : Entry) :
  In e (rankCommands localeCompare query definitions) ->
  tokenize query <> []
  /\ In (command e) definitions
  /\ Forall (fun t => fuzzyScore t (buildSearchText (command e)) <> -1)
       (tokenize query)
  /\ score e = sumZ (tokenScores (tokenize query) (command e)).
Proof.
  intro H. apply In_rankCommands in H. destruct H as [Hne H].
  apply filter_In in H. destruct H as [H Hs].
  apply in_map_iff in H. destruct H as (d & <- & Hd).
  split; [exact Hne|]. split; [exact Hd|]. simpl command.
  destruct (scoreCommand_cases (tokenize query) d) as [[H1 _]|(H1 & H2 & _)].
  - rewrite H1 in Hs. discriminate.
  - auto.
Qed.

(** X7.  Every entry of a ranking has a score between [L] and [2 L],
    where [L], at least 1, is the length of the normal form of the
    whole query: the bounds of the matcher add up over the tokens. *)
Theorem rankCommands_score_bounds (localeCompare : jsstring -> jsstring -> Z)
  (query : jsstring) (definitions : list CommandDefinition) (e : Entry) :
  In e (rankCommands localeCompare query definitions) ->
  let L := Z.of_nat (length (normalizeQuery query)) in
  1 <= L /\ L <= score e <= 2 * L.
Proof.
  intros H L. apply ranked_entry in H.
  destruct H as (Hne & _ & Hall & Hscore).
  assert (Hwf : Forall (fun token => isLowerCase token /\ noWhitespace token)
                  (tokenize query)).
  { eapply Forall_impl; [|apply tokenize_wellformed]. cbv beta. tauto. }
  pose proof (token_scores_bounds (tokenize query)
                (buildSearchText (command e)) Hwf Hall) as Hb.
  rewrite tokenize_concat in Hb. fold L in Hb.
  unfold tokenScores in Hscore. rewrite Hscore. split; [|exact Hb].
  subst L. rewrite <- tokenize_concat.
  pose proof (tokenize_wellformed query) as Hw.
  destruct (tokenize query) as [|t ts]; [contradiction|].
  inversion Hw as [|? ? [Ht _] _]; subst.
  destruct t; [contradiction|]. simpl. lia.
Qed.

Lemma rankCommands_score_bounds_witness :
  In (mkEntry sampleInstall 7)
     (rankCommands foldedCompare (lit "De  IN") [sampleInit; sampleInstall])
  /\ 1 <= 4 /\ 4 <= 7 <= 2 * 4.
Proof.
  assert (H : In (mkEntry sampleInstall 7)
                (rankCommands foldedCompare (lit "De  IN")
                   [sampleInit; sampleInstall])).
  { left. reflexivity. }
  split; [exact H|].
  exact (rankCommands_score_bounds foldedCompare (lit "De  IN")
           [sampleInit; sampleInstall] (mkEntry sampleInstall 7) H).
Defined.

Lemma matchesAllTokens_true (tokens : list jsstring) (c : CommandDefinition) :
  matchesAllTokens tokens c = true
  <-> Forall (fun t => fuzzyScore t (buildSearchText c) <> -1) tokens.
Proof.
  unfold matchesAllTokens. rewrite forallb_forall, Forall_forall.
  split; intros H t Ht; specialize (H t Ht).
  - apply negb_true_iff, Z.eqb_neq in H. exact H.
  - apply negb_true_iff, Z.eqb_neq. exact H.
Qed.

Lemma kept_matchesAllTokens (tokens : list jsstring) (c : CommandDefinition) :
  (0 <=? score (scoreCommand tokens c)) = matchesAllTokens tokens c.
Proof.
  destruct (scoreCommand_cases tokens c) as [[H1 H2]|(H1 & _ & H3)].
  - rewrite H1. symmetry. apply not_true_is_false.
    rewrite matchesAllTokens_true. intro Hall.
    apply Exists_exists in H2. destruct H2 as (t & Ht & E).
    rewrite Forall_forall in Hall. exact (Hall t Ht E).
  - apply matchesAllTokens_true in H1. rewrite H1. now apply Z.leb_le.
Qed.

Lemma kept_commands (tokens : list jsstring)
  (definitions : list CommandDefinition) :
  map command
    (filter (fun entry => 0 <=? score entry)
       (map (scoreCommand tokens) definitions))
  = filter (matchesAllTokens tokens) definitions.
Proof.
  induction definitions as [|d ds IH]; [reflexivity|].
  cbn [map filter]. rewrite kept_matchesAllTokens.
  destruct (matchesAllTokens tokens d); cbn [map]; now rewrite IH.
Qed.

(** X8.  The ranking lists the matching descriptors, each as often as
    it is registered, and nothing else: its commands are a rearrangement
    of the descriptors that match every token.  So it is never longer
    than the registry. *)
Theorem rankCommands_commands (localeCompare : jsstring -> jsstring -> Z)
  (query : jsstring) (definitions : list CommandDefinition) :
  (tokenize query <> [] ->
   Permutation
     (map command (rankCommands localeCompare query definitions))
     (filter (matchesAllTokens (tokenize query)) definitions))
  /\ (length (rankCommands localeCompare query definitions)
      <= length definitions)%nat.
Proof.
  unfold rankCommands. destruct (tokenize query) as [|t ts].
  - split; [contradiction|simpl; lia].
  - set (tokens := t :: ts).
    assert (P : Permutation
                  (map command
                     (sortBy (compareEntries localeCompare)
                        (filter (fun entry => 0 <=? score entry)
                           (map (scoreCommand tokens) definitions))))
                  (filter (matchesAllTokens tokens) definitions)).
    { rewrite <- kept_commands. apply Permutation_map, sortBy_permutation. }
    split; [intros _; exact P|].
    rewrite <- (length_map command), (Permutation_length P).
    apply filter_length_le.
Qed.

Lemma rankCommands_commands_witness :
  tokenize (lit "stall") <> []
  /\ Permutation
       (map command
          (rankCommands foldedCompare (lit "stall") [sampleInit; sampleInstall]))
       [sampleInstall].
Proof.
  assert (H : tokenize (lit "stall") <> []) by discriminate.
  split; [exact H|].
  exact (proj1 (rankCommands_commands foldedCompare (lit "stall")
                  [sampleInit; sampleInstall]) H).
Defined.

Lemma insertBy_head_score (localeCompare : jsstring -> jsstring -> Z)
  (a : Entry) (l : list Entry) :
  match l with
  | [] => True
  | h :: t => Forall (fun e => score e <= score h) t
  end ->
  match insertBy (compareEntries localeCompare) a l with
  | [] => False
  | h :: t => Forall (fun e => score e <= score h) t
  end.
Proof.
  destruct l as [|h t]; simpl; [constructor|]. intro Ht.
  destruct (Z.leb_spec (compareEntries localeCompare a h) 0) as [Hle|Hgt].
  - apply compareEntries_le in Hle. constructor; [lia|].
    eapply Forall_impl; [|exact Ht]. cbv beta. intros e He. lia.
  - apply (Permutation_Forall
             (Permutation_sym
                (insertBy_permutation (compareEntries localeCompare) a t))).
    constructor; [|exact Ht].
    unfold compareEntries in Hgt.
    destruct (Z.eqb_spec (score h) (score a)); simpl in Hgt; lia.
Qed.

Lemma sortBy_head_score (localeCompare : jsstring -> jsstring -> Z)
  (l : list Entry) :
  match sortBy (compareEntries localeCompare) l with
  | [] => l = []
  | h :: _ => forall e, In e l -> score e <= score h
  end.
Proof.
  assert (H : match sortBy (compareEntries localeCompare) l with
              | [] => True
              | h :: t => Forall (fun e => score e <= score h) t
              end).
  { induction l as [|a l IH]; simpl; [exact I|].
    pose proof (insertBy_head_score localeCompare a _ IH) as H.
    destruct (insertBy (compareEntries localeCompare) a
                (sortBy (compareEntries localeCompare) l)); [destruct H|].
    exact H. }
  pose proof (sortBy_permutation (compareEntries localeCompare) l) as P.
  destruct (sortBy (compareEntries localeCompare) l) as [|h t].
  - apply Permutation_nil in P. exact P.
  - intros e He. apply (Permutation_in _ (Permutation_sym P)) in He.
    destruct He as [<-|He]; [lia|].
    rewrite Forall_forall in H. now apply H.
Qed.

Lemma rankCommands_head (localeCompare : jsstring -> jsstring -> Z)
  (query : jsstring) (definitions : list CommandDefinition)
  (best : Entry) (rest : list Entry) :
  rankCommands localeCompare query definitions = best :: rest ->
  forall e,
    In e (rankCommands localeCompare query definitions) ->
    score e <= score best.
Proof.
  intros E e He. rewrite In_rankCommands in He. destruct He as [Hne He].
  unfold rankCommands in E.
  destruct (tokenize query) as [|t ts]; [discriminate|].
  pose proof (sortBy_head_score localeCompare
                (filter (fun entry => 0 <=? score entry)
                   (map (scoreCommand (t :: ts)) definitions))) as H.
  rewrite E in H. now apply H.
Qed.

Lemma matching_descriptor_ranked (localeCompare : jsstring -> jsstring -> Z)
  (query : jsstring) (definitions : list CommandDefinition)
  (d : CommandDefinition) :
  tokenize query <> [] -> In d definitions ->
  matchesAllTokens (tokenize query) d = true ->
  In (mkEntry d (sumZ (tokenScores (tokenize query) d)))
     (rankCommands localeCompare query definitions).
Proof.
  intros Hne Hd Hm. apply In_rankCommands. split; [exact Hne|].
  apply filter_In.
  destruct (scoreCommand_cases (tokenize query) d) as [[H1 H2]|(H1 & H2 & H3)].
  - exfalso. apply matchesAllTokens_true in Hm.
    apply Exists_exists in H2. destruct H2 as (t & Ht & E).
    rewrite Forall_forall in Hm. exact (Hm t Ht E).
  - split.
    + apply in_map_iff. exists d. split; [|exact Hd].
      unfold scoreCommand in *. simpl in H2. now rewrite H2.
    + simpl. rewrite <- H2. now apply Z.leb_le.
Qed.

(** X9.  [suggestClosestCommand] suggests nothing exactly when the
    input has no token or no registered descriptor matches all of its
    tokens.  A suggestion is a registered descriptor that matches all
    tokens, and no matching descriptor has a higher summed score. *)
Theorem suggestClosestCommand_best (localeCompare : jsstring -> jsstring -> Z)
  (registry : list CommandDefinition) (input : jsstring) :
  (suggestClosestCommand localeCompare registry input = None
   <-> tokenize input = []
       \/ forall c, In c registry ->
                    matchesAllTokens (tokenize input) c = false)
  /\ (forall c,
        suggestClosestCommand localeCompare registry input = Some c ->
        In c registry
        /\ matchesAllTokens (tokenize input) c = true
        /\ forall d,
             In d registry ->
             matchesAllTokens (tokenize input) d = true ->
             sumZ (tokenScores (tokenize input) d)
             <= sumZ (tokenScores (tokenize input) c)).
Proof.
  unfold suggestClosestCommand.
  destruct (rankCommands localeCompare input registry) as [|best rest] eqn:E.
  - split; [|discriminate]. split; [|reflexivity]. intros _.
    destruct (tokenize input) as [|t ts] eqn:Et; [now left|right].
    intros c Hc. apply not_true_is_false. intro Hm.
    assert (Hne : tokenize input <> []) by (rewrite Et; discriminate).
    rewrite <- Et in Hm.
    pose proof (matching_descriptor_ranked localeCompare input registry c
                  Hne Hc Hm) as Hin.
    rewrite E in Hin. destruct Hin.
  - assert (Hbest : In best (rankCommands localeCompare input registry))
      by (rewrite E; now left).
    destruct (ranked_entry localeCompare input registry best Hbest)
      as (Hne & Hin & Hall & Hscore).
    split.
    + split; [discriminate|]. intros [H|H]; [contradiction|].
      apply matchesAllTokens_true in Hall.
      rewrite (H _ Hin) in Hall. discriminate.
    + intros c Hc. injection Hc as <-.
      split; [exact Hin|]. split; [now apply matchesAllTokens_true|].
      intros d Hd Hm. rewrite <- Hscore.
      apply (rankCommands_head localeCompare input registry best rest E
               (mkEntry d (sumZ (tokenScores (tokenize input) d)))).
      now apply matching_descriptor_ranked.
Qed.

Lemma suggestClosestCommand_best_witness :
  suggestClosestCommand foldedCompare [sampleInit; sampleInstall] (lit "int")
  = Some sampleInit
  /\ In sampleInit [sampleInit; sampleInstall]
  /\ matchesAllTokens (tokenize (lit "int")) sampleInit = true.
Proof.
  assert (H : suggestClosestCommand foldedCompare [sampleInit; sampleInstall]
                (lit "int") = Some sampleInit) by reflexivity.
  split; [exact H|].
  destruct (proj2 (suggestClosestCommand_best foldedCompare
                     [sampleInit; sampleInstall] (lit "int"))
              sampleInit H) as (H1 & H2 & _).
  split; [exact H1|exact H2].
Defined.

Lemma splitAux_single (s cur : jsstring) :
  noWhitespace s -> splitAux s cur false = [rev cur ++ s].
Proof.
  intro H. revert cur. induction H as [|c s Hc _ IH]; intro cur; simpl.
  - now rewrite app_nil_r.
  - rewrite Hc, IH. cbn [rev]. now rewrite <- app_assoc.
Qed.

Lemma noWhitespace_toLowerCase (s : jsstring) :
  noWhitespace s -> noWhitespace (toLowerCase s).
Proof.
  unfold noWhitespace, toLowerCase. intro H. rewrite Forall_map.
  eapply Forall_impl; [|exact H].
  intros ch Hch. cbv beta. now rewrite isWhitespace_toLowerChar.
Qed.

Lemma tokenize_single_word (query word : jsstring) :
  word <> [] -> noWhitespace word ->
  toLowerCase query = toLowerCase word ->
  tokenize query = [toLowerCase word].
Proof.
  intros Hne Hws E. unfold tokenize, splitWhitespace. rewrite E.
  rewrite (splitAux_single (toLowerCase word) [])
    by now apply noWhitespace_toLowerCase.
  cbn [rev app filter]. rewrite toLowerCase_length.
  destruct word; [contradiction|]. reflexivity.
Qed.

Lemma buildSearchText_starts_with_name (c : CommandDefinition) :
  exists rest, buildSearchText c = toLowerCase (name c) ++ rest.
Proof.
  unfold buildSearchText, toLowerCase. rewrite map_app. eauto.
Qed.

(** X10.  Typing the name of a registered command, in any case, ranks
    that command with the full score, twice the length of the name,
    and no entry of that ranking scores higher.  The name has to be
    non-empty and free of white space. *)
Theorem rankCommands_exact_name (localeCompare : jsstring -> jsstring -> Z)
  (definitions : list CommandDefinition) (c : CommandDefinition)
  (query : jsstring) :
  In c definitions ->
  name c <> [] -> noWhitespace (name c) ->
  toLowerCase query = toLowerCase (name c) ->
  In (mkEntry c (2 * Z.of_nat (length (name c))))
     (rankCommands localeCompare query definitions)
  /\ forall e,
       In e (rankCommands localeCompare query definitions) ->
       score e <= 2 * Z.of_nat (length (name c)).
Proof.
  intros Hc Hne Hws Hq.
  pose proof (tokenize_single_word query (name c) Hne Hws Hq) as Htok.
  assert (Hnorm : normalizeQuery (toLowerCase (name c))
                  = toLowerCase (name c)).
  { apply normalizeQuery_id;
      [apply toLowerCase_idempotent|now apply noWhitespace_toLowerCase]. }
  assert (Hupper : forall text,
            fuzzyScore (toLowerCase (name c)) text
            <= 2 * Z.of_nat (length (name c))).
  { intro text.
    destruct (fuzzyScore_cases (toLowerCase (name c)) text)
      as [[H _]|(_ & _ & H)].
    - rewrite H. lia.
    - rewrite Hnorm, toLowerCase_length in H. lia. }
  split.
  - assert (Hfull : fuzzyScore (toLowerCase (name c)) (buildSearchText c)
                    = 2 * Z.of_nat (length (name c))).
    { destruct (buildSearchText_starts_with_name c) as [rest ->].
      unfold fuzzyScore. rewrite Hnorm.
      pose proof (fuzzyLoop_contiguous (toLowerCase (name c))
                    (toLowerCase_idempotent (name c)) [] rest 0) as Hl.
      cbn [app length] in Hl. change (Z.of_nat 0) with 0 in Hl.
      rewrite toLowerCase_length in Hl.
      destruct (toLowerCase (name c)) eqn:E.
      - destruct (name c); [contradiction|discriminate].
      - rewrite Hl. lia. }
    assert (Hentry : In (mkEntry c (sumZ (tokenScores (tokenize query) c)))
                       (rankCommands localeCompare query definitions)).
    { apply matching_descriptor_ranked; [rewrite Htok; discriminate|exact Hc|].
      apply matchesAllTokens_true. rewrite Htok.
      constructor; [|constructor]. rewrite Hfull.
      destruct (name c); [contradiction|]. simpl length. lia. }
    rewrite Htok in Hentry. unfold tokenScores, sumZ in Hentry.
    cbn [map fold_right] in Hentry. rewrite Hfull, Z.add_0_r in Hentry.
    exact Hentry.
  - intros e He. apply ranked_entry in He.
    destruct He as (_ & _ & _ & Hs). rewrite Hs, Htok.
    unfold tokenScores, sumZ. cbn [map fold_right]. rewrite Z.add_0_r.
    apply Hupper.
Qed.

Lemma rankCommands_exact_name_witness :
  (In sampleInstall [sampleInit; sampleInstall]
   /\ name sampleInstall <> []
   /\ noWhitespace (name sampleInstall)
   /\ toLowerCase (lit "INSTALL") = toLowerCase (name sampleInstall))
  /\ In (mkEntry sampleInstall 14)
        (rankCommands foldedCompare (lit "INSTALL")
           [sampleInit; sampleInstall]).
Proof.
  assert (H1 : In sampleInstall [sampleInit; sampleInstall])
    by (right; left; reflexivity).
  assert (H2 : name sampleInstall <> []) by discriminate.
  assert (H3 : noWhitespace (name sampleInstall)) by (repeat constructor).
  assert (H4 : toLowerCase (lit "INSTALL") = toLowerCase (name sampleInstall))
    by reflexivity.
  split; [auto|].
  exact (proj1 (rankCommands_exact_name foldedCompare
                  [sampleInit; sampleInstall] sampleInstall (lit "INSTALL")
                  H1 H2 H3 H4)).
Defined.

(** * Further properties of the registry lookup *)

(** X11.  Whatever the registry, [findCommand] returns a registered
    descriptor whose name or one of whose aliases is, letter for
    letter, the lower-cased input; the case of the input does not
    matter; and a descriptor none of whose spellings is lower case is
    never returned. *)
Theorem findCommand_sound (registry : list CommandDefinition)
  (input : jsstring) :
  (forall c,
     findCommand registry input = Some c ->
     In c registry
     /\ (name c = toLowerCase input
         \/ exists al, aliases c = Some al /\ In (toLowerCase input) al))
  /\ findCommand registry (toLowerCase input) = findCommand registry input
  /\ (forall c,
        ~ isLowerCase (name c) ->
        (forall al alias,
           aliases c = Some al -> In alias al -> ~ isLowerCase alias) ->
        findCommand registry input <> Some c).
Proof.
  assert (Hsound : forall c,
            findCommand registry input = Some c ->
            In c registry
            /\ (name c = toLowerCase input
                \/ exists al,
                     aliases c = Some al /\ In (toLowerCase input) al)).
  { intros c H. unfold findCommand in H. apply find_some in H.
    destruct H as [Hin Hm]. split; [exact Hin|].
    unfold commandMatches in Hm.
    destruct (jsstring_eqb (name c) (toLowerCase input)) eqn:E.
    - left. now apply jsstring_eqb_eq.
    - right. destruct (aliases c) as [al|]; [|discriminate].
      exists al. split; [reflexivity|].
      apply existsb_exists in Hm. destruct Hm as (alias & Ha & Heq).
      apply jsstring_eqb_eq in Heq. now subst alias. }
  split; [exact Hsound|]. split.
  - unfold findCommand. now rewrite toLowerCase_idempotent.
  - intros c Hname Hal H. apply Hsound in H.
    destruct H as [_ [H|(al & Ha & Hin)]].
    + apply Hname. unfold isLowerCase. rewrite H.
      apply toLowerCase_idempotent.
    + apply (Hal al (toLowerCase input) Ha Hin).
      apply toLowerCase_idempotent.
Qed.

Lemma findCommand_sound_witness :
  findCommand [sampleInit; sampleInstall] (lit "I") = Some sampleInstall
  /\ In sampleInstall [sampleInit; sampleInstall]
  /\ (name sampleInstall = toLowerCase (lit "I")
      \/ exists al,
           aliases sampleInstall = Some al /\ In (toLowerCase (lit "I")) al).
Proof.
  assert (H : findCommand [sampleInit; sampleInstall] (lit "I")
              = Some sampleInstall) by reflexivity.
  split; [exact H|].
  exact (proj1 (findCommand_sound [sampleInit; sampleInstall] (lit "I"))
           sampleInstall H).
Defined.

(** * Further properties of the interactive selector *)

Section SelectorSession.
Variable localeCompare : jsstring -> jsstring -> Z.
Variable definitions : list CommandDefinition.

Lemma rankCommands_within (term : jsstring) :
  Forall (fun entry => In (command entry) definitions)
    (rankCommands localeCompare term definitions).
Proof.
  apply Forall_forall. intros e He. apply ranked_entry in He. tauto.
Qed.

Lemma selectorStep_within (st : SelectorState) (answer : jsstring) :
  stateWithin definitions st ->
  stateWithin definitions
    (fst (selectorStep localeCompare definitions st answer)).
Proof.
  intro Hst. destruct st as [|suggestions|c|]; simpl.
  - destruct (trim answer) as [|x t]; [exact I|].
    pose proof (rankCommands_within (x :: t)) as Hr.
    destruct (rankCommands localeCompare (x :: t) definitions)
      as [|e1 [|e2 r]]; simpl.
    + exact I.
    + now inversion Hr.
    + rewrite Forall_forall in *. intros e He.
      apply Hr.
      rewrite <- (firstn_skipn (Nat.min 5 (length (e1 :: e2 :: r)))
                    (e1 :: e2 :: r)).
      apply in_or_app. left. exact He.
  - destruct (trim answer) as [|x t]; [exact I|].
    destruct (parseInt (x :: t)) as [k|]; [|exact I].
    destruct ((1 <=? k) && (k <=? Z.of_nat (length suggestions)));
      [|exact I].
    destruct (nth_error suggestions (Z.to_nat (k - 1))) as [e|] eqn:E;
      [|exact I].
    simpl in *. rewrite Forall_forall in Hst. apply Hst.
    eapply nth_error_In. exact E.
  - exact Hst.
  - exact I.
Qed.

Lemma selectorLoop_within (inputs : list jsstring) :
  forall st,
    stateWithin definitions st ->
    stateWithin definitions
      (fst (fst (selectorLoop localeCompare definitions st inputs))).
Proof.
  induction inputs as [|answer rest IH]; intros st Hst.
  - destruct st; exact Hst.
  - pose proof (selectorStep_within st answer Hst) as Hnext.
    destruct st as [|suggestions|c|]; cbn [selectorLoop];
      try exact Hst.
    + destruct (selectorStep localeCompare definitions AwaitingQuery answer)
        as [st' o].
      specialize (IH st' Hnext).
      destruct (selectorLoop localeCompare definitions st' rest)
        as [[final outs] unread]. exact IH.
    + destruct (selectorStep localeCompare definitions
                  (AwaitingSelection suggestions) answer) as [st' o].
      specialize (IH st' Hnext).
      destruct (selectorLoop localeCompare definitions st' rest)
        as [[final outs] unread]. exact IH.
Qed.

Lemma selectorStep_logs (st : SelectorState) (answer : jsstring) :
  forallb isLog (snd (selectorStep localeCompare definitions st answer))
  = true.
Proof.
  assert (Hlist : forall i l, forallb isLog (listMatches i l) = true).
  { intros i l. revert i. induction l as [|e l IH]; intro i; simpl; auto. }
  destruct st as [|suggestions|c|]; simpl; try reflexivity.
  - destruct (trim answer) as [|x t]; [reflexivity|].
    destruct (rankCommands localeCompare (x :: t) definitions)
      as [|e1 [|e2 r]]; try reflexivity.
    cbn [snd app forallb isLog andb].
    rewrite forallb_app, Hlist. reflexivity.
  - destruct (trim answer) as [|x t]; [reflexivity|].
    destruct (parseInt (x :: t)) as [k|]; [|reflexivity].
    destruct ((1 <=? k) && (k <=? Z.of_nat (length suggestions)));
      [|reflexivity].
    destruct (nth_error suggestions (Z.to_nat (k - 1))); reflexivity.
Qed.

Lemma answersOf_app (a b : list Event) :
  answersOf (a ++ b) = answersOf a ++ answersOf b.
Proof. unfold answersOf. apply flat_map_app. Qed.

Lemma answersOf_logs (out : list Event) :
  forallb isLog out = true -> answersOf out = [].
Proof.
  induction out as [|e out IH]; [reflexivity|]. simpl.
  destruct e; simpl; try discriminate. exact IH.
Qed.

Lemma interface_logs (out : list Event) :
  forallb isLog out = true -> filter isInterfaceEvent out = [].
Proof.
  induction out as [|e out IH]; [reflexivity|]. simpl.
  destruct e; simpl; try discriminate. exact IH.
Qed.

(** What one run of the loop reads and prints. *)
Lemma selectorLoop_trace (inputs : list jsstring) :
  forall st final out unread,
    selectorLoop localeCompare definitions st inputs = (final, out, unread) ->
    inputs = answersOf out ++ unread
    /\ filter isInterfaceEvent out = []
    /\ (match final with
        | AwaitingQuery | AwaitingSelection _ => unread = []
        | Done _ | Cancelled => True
        end).
Proof.
  induction inputs as [|answer rest IH]; intros st final out unread H.
  - destruct st; simpl in H; injection H as <- <- <-; auto.
  - destruct st as [|suggestions|c|]; cbn [selectorLoop] in H;
      try (injection H as <- <- <-; auto).
    + pose proof (selectorStep_logs AwaitingQuery answer) as Hlog.
      destruct (selectorStep localeCompare definitions AwaitingQuery answer)
        as [st' o].
      destruct (selectorLoop localeCompare definitions st' rest)
        as [[final' outs] unread'] eqn:El.
      injection H as <- <- <-.
      destruct (IH _ _ _ _ El) as (H1 & H2 & H3). simpl in Hlog.
      split; [|split; [|exact H3]].
      * cbn [answersOf flat_map]. fold (answersOf (o ++ outs)).
        rewrite answersOf_app, (answersOf_logs o Hlog). simpl.
        now rewrite H1.
      * cbn [filter isInterfaceEvent].
        now rewrite filter_app, (interface_logs o Hlog), H2.
    + pose proof (selectorStep_logs (AwaitingSelection suggestions) answer)
        as Hlog.
      destruct (selectorStep localeCompare definitions
                  (AwaitingSelection suggestions) answer) as [st' o].
      destruct (selectorLoop localeCompare definitions st' rest)
        as [[final' outs] unread'] eqn:El.
      injection H as <- <- <-.
      destruct (IH _ _ _ _ El) as (H1 & H2 & H3). simpl in Hlog.
      split; [|split; [|exact H3]].
      * cbn [answersOf flat_map]. fold (answersOf (o ++ outs)).
        rewrite answersOf_app, (answersOf_logs o Hlog). simpl.
        now rewrite H1.
      * cbn [filter isInterfaceEvent].
        now rewrite filter_app, (interface_logs o Hlog), H2.
Qed.
End SelectorSession.

Lemma command_lines_logs (definitions : list CommandDefinition)
  (line : CommandDefinition -> jsstring) :
  forallb isLog (map (fun c => Log (line c)) definitions) = true.
Proof. induction definitions as [|d ds IH]; simpl; auto. Qed.

Lemma promptForCommand_shape (localeCompare : jsstring -> jsstring -> Z)
  (d : CommandDefinition) (ds : list CommandDefinition)
  (inputs : list jsstring) :
  exists listing,
    forallb isLog listing = true
    /\ promptForCommand localeCompare (d :: ds) inputs
       = (let '(final, out, unread) :=
            selectorLoop localeCompare (d :: ds) AwaitingQuery inputs in
          match final with
          | Done c =>
              (Resolved (Some c),
               listing ++ CreateInterface :: out ++ [CloseInterface], unread)
          | Cancelled =>
              (Resolved None,
               listing ++ CreateInterface :: out ++ [CloseInterface], unread)
          | _ => (StillWaiting final, listing ++ CreateInterface :: out,
                  unread)
          end).
Proof.
  exists ([Log (lit "Available commands:")]
          ++ map (fun c => Log (lit "  " ++ name c ++ lit "  "
                                ++ description c)) (d :: ds)
          ++ [Log (newline
                   ++ lit "Type to filter commands. Press Enter to cancel."
                   ++ newline)]).
  split.
  - rewrite !forallb_app, command_lines_logs. reflexivity.
  - unfold promptForCommand. cbv zeta.
    destruct (selectorLoop localeCompare (d :: ds) AwaitingQuery inputs)
      as [[final out] unread].
    destruct final; repeat (rewrite <- app_assoc; cbn [app]); reflexivity.
Qed.

(** X12.  The selector never invents a command: whatever is typed, a
    command returned by [promptForCommand] is one of the definitions it
    was given. *)
Theorem promptForCommand_selection_registered
  (localeCompare : jsstring -> jsstring -> Z)
  (definitions : list CommandDefinition) (inputs : list jsstring)
  (c : CommandDefinition) (trace : list Event) (unread : list jsstring) :
  promptForCommand localeCompare definitions inputs
  = (Resolved (Some c), trace, unread) ->
  In c definitions.
Proof.
  unfold promptForCommand. destruct definitions as [|d ds]; [discriminate|].
  pose proof (selectorLoop_within localeCompare (d :: ds) inputs
                AwaitingQuery I) as H.
  destruct (selectorLoop localeCompare (d :: ds) AwaitingQuery inputs)
    as [[final out] rest].
  destruct final; intro E; try discriminate.
  injection E as <- _ _. exact H.
Qed.

Lemma promptForCommand_selection_registered_witness :
  promptForCommand foldedCompare [sampleInit; sampleInstall]
    [lit "in"; lit "2"; lit "left"]
  = (Resolved (Some sampleInstall),
     [Log (lit "Available commands:");
      Log (lit "  init  Create manifest");
      Log (lit "  install  Install deps");
      Log (newline ++ lit "Type to filter commands. Press Enter to cancel."
           ++ newline);
      CreateInterface;
      Question searchPrompt (lit "in");
      Log []; Log (lit "Matches:");
      Log (lit "  1. init  Create manifest");
      Log (lit "  2. install  Install deps");
      Log [];
      Question selectPrompt (lit "2");
      CloseInterface],
     [lit "left"])
  /\ In sampleInstall [sampleInit; sampleInstall].
Proof.
  split; [reflexivity|].
  eapply (promptForCommand_selection_registered foldedCompare
            [sampleInit; sampleInstall] [lit "in"; lit "2"; lit "left"]).
  reflexivity.
Defined.

(** X14.  The readline interface is created once, after the listing and
    before the first question, and only for a non-empty registry; it is
    closed, once and as the last thing, exactly when [promptForCommand]
    returns, and it is still open while the prompt waits. *)
Theorem promptForCommand_interface
  (localeCompare : jsstring -> jsstring -> Z)
  (definitions : list CommandDefinition) (inputs : list jsstring)
  (result : PromptResult) (trace : list Event) (unread : list jsstring) :
  promptForCommand localeCompare definitions inputs
  = (result, trace, unread) ->
  definitions <> [] ->
  match result with
  | Resolved _ =>
      filter isInterfaceEvent trace = [CreateInterface; CloseInterface]
      /\ exists before, trace = before ++ [CloseInterface]
  | StillWaiting _ => filter isInterfaceEvent trace = [CreateInterface]
  end.
Proof.
  destruct definitions as [|d ds]; [contradiction|].
  destruct (promptForCommand_shape localeCompare d ds inputs)
    as (listing & Hlog & ->).
  destruct (selectorLoop localeCompare (d :: ds) AwaitingQuery inputs)
    as [[final out] rest] eqn:El.
  destruct (selectorLoop_trace localeCompare (d :: ds) inputs _ _ _ _ El)
    as (_ & H2 & _).
  intros E _.
  destruct final; injection E as <- <- <-;
    rewrite filter_app, (interface_logs listing Hlog);
    cbn [app filter isInterfaceEvent];
    try rewrite filter_app; rewrite H2; cbn [app filter isInterfaceEvent];
    try reflexivity.
  - split; [reflexivity|].
    exists (listing ++ CreateInterface :: out).
    rewrite <- app_assoc. reflexivity.
  - split; [reflexivity|].
    exists (listing ++ CreateInterface :: out).
    rewrite <- app_assoc. reflexivity.
Qed.

Lemma promptForCommand_interface_witness :
  [sampleInit; sampleInstall] <> []
  /\ filter isInterfaceEvent
       (snd (fst (promptForCommand foldedCompare [sampleInit; sampleInstall]
                    [lit "in"; lit "7"; lit ""])))
     = [CreateInterface; CloseInterface].
Proof.
  assert (H : [sampleInit; sampleInstall] <> []) by discriminate.
  split; [exact H|].
  destruct (promptForCommand foldedCompare [sampleInit; sampleInstall]
              [lit "in"; lit "7"; lit ""]) as [[result trace] unread] eqn:E.
  pose proof (promptForCommand_interface foldedCompare
                [sampleInit; sampleInstall] [lit "in"; lit "7"; lit ""]
                result trace unread E H) as P.
  assert (Hr : result = Resolved None).
  { vm_compute in E. now injection E as <- _ _. }
  subst result. exact (proj1 P).
Defined.

(** ** Numbers typed and numbers shown *)

Lemma isDigit_plain (ch : ascii) :
  isDigit ch = true ->
  isWhitespace ch = false /\ (code ch =? 45) = false
  /\ (code ch =? 43) = false.
Proof.
  unfold isDigit, isWhitespace. intro H.
  apply andb_true_iff in H. destruct H as [H1 H2].
  apply Z.leb_le in H1. apply Z.leb_le in H2.
  repeat split.
  - destruct (Z.leb_spec 9 (code ch)), (Z.leb_spec (code ch) 13),
      (Z.eqb_spec (code ch) 32), (Z.eqb_spec (code ch) 160);
      simpl; try reflexivity; lia.
  - apply Z.eqb_neq. lia.
  - apply Z.eqb_neq. lia.
Qed.

Lemma string_of_uint_digits (d : Decimal.uint) :
  Forall (fun ch => isDigit ch = true) (lit (NilEmpty.string_of_uint d)).
Proof.
  induction d; simpl; constructor; auto.
Qed.

Lemma parseDigits_uint (d : Decimal.uint) :
  forall acc,
    parseDigits (lit (NilEmpty.string_of_uint d)) (Z.of_nat acc)
    = Z.of_nat (Nat.of_uint_acc d acc).
Proof.
  induction d; intro acc; cbn [NilEmpty.string_of_uint list_ascii_of_string
                                 parseDigits Nat.of_uint_acc];
    [reflexivity|..];
    match goal with
    | [ |- (if isDigit ?c then _ else _) = _ ] =>
        change (isDigit c) with true; cbv iota
    end;
    rewrite <- IHd; f_equal; rewrite Nat.tail_mul_spec;
    match goal with
    | [ |- context [code ?c] ] =>
        let v := eval vm_compute in (code c) in change (code c) with v
    end; lia.
Qed.

Lemma to_uint_digits (n : nat) :
  exists ch rest,
    decimal n = ch :: rest /\ isDigit ch = true
    /\ Forall (fun x => isDigit x = true) rest.
Proof.
  unfold decimal.
  pose proof (string_of_uint_digits (Nat.to_uint n)) as H.
  assert (Hnorm : Nat.to_uint n = Decimal.unorm (Nat.to_uint n)).
  { rewrite <- (DecimalNat.Unsigned.to_of (Nat.to_uint n)).
    now rewrite DecimalNat.Unsigned.of_to. }
  destruct (Nat.to_uint n) eqn:E;
    try (simpl in *; inversion H; subst; eauto).
  unfold Decimal.unorm in Hnorm. simpl in Hnorm. discriminate.
Qed.

Lemma parseInt_decimal (n : nat) : parseInt (decimal n) = Some (Z.of_nat n).
Proof.
  destruct (to_uint_digits n) as (ch & rest & E & Hch & _).
  destruct (isDigit_plain ch Hch) as (Hws & Hminus & Hplus).
  unfold parseInt. rewrite E. cbn [trimStart]. rewrite Hws, Hminus, Hplus.
  cbn [startsWithDigit]. rewrite Hch. f_equal.
  rewrite <- E. unfold decimal.
  change 0 with (Z.of_nat 0). rewrite parseDigits_uint.
  f_equal. apply DecimalNat.Unsigned.of_to.
Qed.

Lemma trimStart_plain (s : jsstring) : noWhitespace s -> trimStart s = s.
Proof.
  destruct 1 as [|c s Hc _]; simpl; [reflexivity|]. now rewrite Hc.
Qed.

Lemma trim_plain (s : jsstring) : noWhitespace s -> trim s = s.
Proof.
  intro H. unfold trim. rewrite (trimStart_plain s H).
  rewrite (trimStart_plain (rev s)) by now apply Forall_rev.
  apply rev_involutive.
Qed.

Lemma decimal_plain (n : nat) : noWhitespace (decimal n) /\ decimal n <> [].
Proof.
  destruct (to_uint_digits n) as (ch & rest & E & Hch & Hrest).
  rewrite E. split; [|discriminate].
  constructor; [now apply isDigit_plain|].
  eapply Forall_impl; [|exact Hrest].
  intros x Hx. now apply isDigit_plain.
Qed.

Lemma listMatches_line (suggestions : list Entry) :
  forall index k entry,
    nth_error suggestions k = Some entry ->
    In (Log (lit "  " ++ decimal (index + k + 1) ++ lit ". "
             ++ name (command entry) ++ lit "  "
             ++ description (command entry)))
       (listMatches index suggestions).
Proof.
  induction suggestions as [|e rest IH]; intros index k entry H.
  - destruct k; discriminate.
  - destruct k as [|k]; simpl in H.
    + injection H as ->. left. now rewrite Nat.add_0_r.
    + right. cbn [listMatches].
      replace (index + S k + 1)%nat with (S index + k + 1)%nat by lia.
      now apply IH.
Qed.

(** X15.  The number printed in front of a suggestion is the number to
    type for it: answering the selection prompt with the number shown
    for an entry returns the command of that entry. *)
Theorem selection_by_shown_number (localeCompare : jsstring -> jsstring -> Z)
  (definitions : list CommandDefinition)
  (suggestions : list Entry) (k : nat) (entry : Entry) :
  nth_error suggestions k = Some entry ->
  In (Log (lit "  " ++ decimal (k + 1) ++ lit ". "
           ++ name (command entry) ++ lit "  "
           ++ description (command entry)))
     (listMatches 0 suggestions)
  /\ selectorStep localeCompare definitions
       (AwaitingSelection suggestions) (decimal (k + 1))
     = (Done (command entry), []).
Proof.
  intro H. split; [exact (listMatches_line suggestions 0 k entry H)|].
  destruct (decimal_plain (k + 1)) as [Hws Hne].
  unfold selectorStep. rewrite (trim_plain _ Hws).
  destruct (decimal (k + 1)) as [|c t] eqn:E; [contradiction|].
  rewrite <- E, parseInt_decimal.
  assert (Hk : (k < length suggestions)%nat).
  { apply nth_error_Some. rewrite H. discriminate. }
  destruct (Z.leb_spec 1 (Z.of_nat (k + 1))); [|lia].
  destruct (Z.leb_spec (Z.of_nat (k + 1)) (Z.of_nat (length suggestions)));
    [|lia].
  cbn [andb].
  replace (Z.to_nat (Z.of_nat (k + 1) - 1)) with k by lia.
  now rewrite H.
Qed.

Lemma selection_by_shown_number_witness :
  nth_error [mkEntry sampleInit 4; mkEntry sampleInstall 4] 1
  = Some (mkEntry sampleInstall 4)
  /\ selectorStep foldedCompare [sampleInit; sampleInstall]
       (AwaitingSelection [mkEntry sampleInit 4; mkEntry sampleInstall 4])
       (lit "2")
     = (Done sampleInstall, []).
Proof.
  split; [reflexivity|].
  exact (proj2 (selection_by_shown_number foldedCompare
                  [sampleInit; sampleInstall]
                  [mkEntry sampleInit 4; mkEntry sampleInstall 4] 1
                  (mkEntry sampleInstall 4) eq_refl)).
Defined.

(** * Further properties of the dispatcher *)

Lemma findCommand_In (registry : list CommandDefinition) (input : jsstring)
  (c : CommandDefinition) :
  findCommand registry input = Some c -> In c registry.
Proof.
  unfold findCommand. intro H. apply find_some in H. tauto.
Qed.

(** X16.  Asking for the help of a known command is the same in its
    three spellings: [help name], with or without anything after the
    name, and [name --help] or [name -h], with any other arguments
    around the flag.  Each prints the command's help and nothing else,
    leaves the exit code unset and does not run the command. *)
Theorem main_command_help (localeCompare : jsstring -> jsstring -> Z)
  (registry : list CommandDefinition) (env : Environment)
  (target : jsstring) (c : CommandDefinition) :
  findCommand registry target = Some c ->
  (target <> [] ->
   forall rest,
     main localeCompare registry env (lit "help" :: target :: rest)
     = mkProcess (printCommandHelp c) None Normal)
  /\ (target <> lit "help" ->
      forall rest,
        existsb isHelpFlag rest = true ->
        main localeCompare registry env (target :: rest)
        = mkProcess (printCommandHelp c) None Normal).
Proof.
  intro Hfind. unfold main, mainBody. split.
  - intros Hne rest. cbn [length Nat.eqb andb].
    change (jsstring_eqb (lit "help") (lit "help")) with true. cbv iota.
    destruct target as [|x t]; [contradiction|].
    rewrite Hfind. reflexivity.
  - intros Hhelp rest Hflag. apply jsstring_eqb_neq in Hhelp.
    destruct rest as [|r rest]; [discriminate|].
    cbn [length Nat.eqb andb]. rewrite Hhelp, Hfind, Hflag. reflexivity.
Qed.

Lemma main_command_help_witness :
  (findCommand (commands missingPackage) (lit "Init")
   = Some (initCommand missingPackage)
   /\ lit "Init" <> [] /\ lit "Init" <> lit "help"
   /\ existsb isHelpFlag [lit "now"; lit "-h"] = true)
  /\ main foldedCompare (commands missingPackage) (terminalEnvironment [])
       [lit "help"; lit "Init"]
     = mkProcess (printCommandHelp (initCommand missingPackage)) None Normal
  /\ main foldedCompare (commands missingPackage) (terminalEnvironment [])
       [lit "Init"; lit "now"; lit "-h"]
     = mkProcess (printCommandHelp (initCommand missingPackage)) None Normal.
Proof.
  assert (H1 : findCommand (commands missingPackage) (lit "Init")
               = Some (initCommand missingPackage)) by reflexivity.
  assert (H2 : lit "Init" <> []) by discriminate.
  assert (H3 : lit "Init" <> lit "help") by discriminate.
  assert (H4 : existsb isHelpFlag [lit "now"; lit "-h"] = true)
    by reflexivity.
  split; [auto|].
  destruct (main_command_help foldedCompare (commands missingPackage)
              (terminalEnvironment []) (lit "Init")
              (initCommand missingPackage) H1) as [Hword Hflag].
  split; [exact (Hword H2 [])|exact (Hflag H3 [lit "now"; lit "-h"] H4)].
Defined.

Lemma suggestion_registered (localeCompare : jsstring -> jsstring -> Z)
  (registry : list CommandDefinition) (input : jsstring)
  (c : CommandDefinition) :
  suggestClosestCommand localeCompare registry input = Some c ->
  In c registry /\ matchesAllTokens (tokenize input) c = true.
Proof.
  unfold suggestClosestCommand.
  destruct (rankCommands localeCompare input registry) as [|best rest] eqn:E;
    [discriminate|].
  intro H. injection H as <-.
  assert (Hbest : In best (rankCommands localeCompare input registry))
    by (rewrite E; now left).
  destruct (ranked_entry localeCompare input registry best Hbest)
    as (_ & Hin & Hall & _).
  split; [exact Hin|now apply matchesAllTokens_true].
Qed.

(** X17.  A name that [findCommand] does not know, given as the command
    or as the target of [help], makes [main] print the unknown-command
    line on the error stream, set the exit code to 1 and run nothing.
    At most one more line follows, and the command it proposes is a
    registered one that matches every token of the name. *)
Theorem main_reports_unknown_command (localeCompare : jsstring -> jsstring -> Z)
  (registry : list CommandDefinition) (env : Environment)
  (target : jsstring) (rest : list jsstring) (args : list jsstring) :
  findCommand registry target = None ->
  target <> [] ->
  (args = lit "help" :: target :: rest
   \/ (args = target :: rest
       /\ target <> lit "help"
       /\ ((length args =? 1)%nat
           && (isVersionFlag target || isHelpFlag target)) = false)) ->
  exitCode (main localeCompare registry env args) = Some 1
  /\ completion (main localeCompare registry env args) = Normal
  /\ (events (main localeCompare registry env args)
      = [ErrLog (lit "Unknown command: " ++ target)]
      \/ exists c,
           In c registry
           /\ matchesAllTokens (tokenize target) c = true
           /\ events (main localeCompare registry env args)
              = [ErrLog (lit "Unknown command: " ++ target);
                 ErrLog (lit "Did you mean " ++ [fromCode 34] ++ name c
                         ++ [fromCode 34] ++ lit "?")]).
Proof.
  intros Hfind Hne Hargs.
  assert (Hmain : main localeCompare registry env args
                  = unknownCommand localeCompare registry target).
  { unfold main, mainBody.
    destruct Hargs as [->|(-> & Hhelp & Hflag)].
    - cbn [length Nat.eqb andb].
      change (jsstring_eqb (lit "help") (lit "help")) with true. cbv iota.
      destruct target as [|x t]; [contradiction|].
      rewrite Hfind. reflexivity.
    - apply andb_false_iff in Hflag.
      assert (Hv : ((length (target :: rest) =? 1)%nat
                    && isVersionFlag target) = false).
      { destruct Hflag as [->|H]; [reflexivity|].
        apply orb_false_iff in H. destruct H as [-> _].
        apply andb_false_r. }
      assert (Hh : ((length (target :: rest) =? 1)%nat
                    && isHelpFlag target) = false).
      { destruct Hflag as [->|H]; [reflexivity|].
        apply orb_false_iff in H. destruct H as [_ ->].
        apply andb_false_r. }
      rewrite Hv, Hh. apply jsstring_eqb_neq in Hhelp.
      rewrite Hhelp, Hfind. reflexivity. }
  rewrite Hmain. unfold unknownCommand. cbn [exitCode completion events].
  split; [reflexivity|]. split; [reflexivity|].
  destruct (suggestClosestCommand localeCompare registry target) as [c|] eqn:E.
  - right. exists c.
    destruct (suggestion_registered localeCompare registry target c E).
    auto.
  - left. reflexivity.
Qed.

Lemma main_reports_unknown_command_witness :
  (findCommand (commands missingPackage) (lit "int") = None
   /\ lit "int" <> [])
  /\ exitCode (main foldedCompare (commands missingPackage)
                 (terminalEnvironment []) [lit "help"; lit "int"])
     = Some 1.
Proof.
  assert (H1 : findCommand (commands missingPackage) (lit "int") = None)
    by reflexivity.
  assert (H2 : lit "int" <> []) by discriminate.
  split; [auto|].
  exact (proj1 (main_reports_unknown_command foldedCompare (commands missingPackage)
                  (terminalEnvironment []) (lit "int") []
                  [lit "help"; lit "int"] H1 H2 (or_introl eq_refl))).
Defined.

(** X18.  [main] leaves the exit code unset or sets it to 1, nothing
    else; and whenever it sets it to 1, the last thing it has printed is
    a line on the error stream. *)
Theorem main_exit_code (localeCompare : jsstring -> jsstring -> Z)
  (registry : list CommandDefinition) (env : Environment)
  (args : list jsstring) :
  (exitCode (main localeCompare registry env args) = None
   \/ exitCode (main localeCompare registry env args) = Some 1)
  /\ (exitCode (main localeCompare registry env args) = Some 1 ->
      exists before line,
        events (main localeCompare registry env args)
        = before ++ [ErrLog line]).
Proof.
  assert (Hexec : forall c a before,
            let p := executeCommand c a before in
            (exitCode
               (match completion p with
                | Throw error =>
                    mkProcess (events p ++ [ErrLog (errorText error)])
                      (Some 1) Normal
                | _ => p
                end) = None
             \/ exitCode
                  (match completion p with
                   | Throw error =>
                       mkProcess (events p ++ [ErrLog (errorText error)])
                         (Some 1) Normal
                   | _ => p
                   end) = Some 1)
            /\ (exitCode
                  (match completion p with
                   | Throw error =>
                       mkProcess (events p ++ [ErrLog (errorText error)])
                         (Some 1) Normal
                   | _ => p
                   end) = Some 1 ->
                exists pre line,
                  events
                    (match completion p with
                     | Throw error =>
                         mkProcess (events p ++ [ErrLog (errorText error)])
                           (Some 1) Normal
                     | _ => p
                     end) = pre ++ [ErrLog line])).
  { intros c a before. unfold executeCommand. cbv zeta.
    destruct (runThrown (run c a)) as [e|]; simpl.
    - split; [now right|]. intros _. eauto.
    - split; [now left|]. discriminate. }
  assert (Hunknown : forall target,
            let p := unknownCommand localeCompare registry target in
            exitCode p = Some 1 /\ completion p = Normal
            /\ exists pre line, events p = pre ++ [ErrLog line]).
  { intro target. unfold unknownCommand. simpl.
    split; [reflexivity|]. split; [reflexivity|].
    destruct (suggestClosestCommand localeCompare registry target).
    - eexists [_], _. reflexivity.
    - eexists [], _. reflexivity. }
  assert (Hplain : forall out,
            (exitCode (mkProcess out None Normal) = None
             \/ exitCode (mkProcess out None Normal) = Some 1)
            /\ (exitCode (mkProcess out None Normal) = Some 1 ->
                exists pre line,
                  events (mkProcess out None Normal) = pre ++ [ErrLog line])).
  { intro out. simpl. split; [now left|discriminate]. }
  unfold main, mainBody. destruct args as [|first others].
  - destruct (negb (stdinIsTTY env) || negb (stdoutIsTTY env));
      [apply Hplain|].
    destruct (promptForCommand localeCompare registry (typed env))
      as [[result out] unread].
    destruct result as [[sel|]|st].
    + apply Hexec.
    + apply Hplain.
    + simpl. split; [now left|discriminate].
  - destruct ((length (first :: others) =? 1)%nat && isVersionFlag first);
      [apply Hplain|].
    destruct ((length (first :: others) =? 1)%nat && isHelpFlag first);
      [apply Hplain|].
    destruct (jsstring_eqb first (lit "help")).
    + destruct others as [|[|x t] more]; try apply Hplain.
      destruct (findCommand registry (x :: t)); [apply Hplain|].
      destruct (Hunknown (x :: t)) as (H1 & H2 & H3).
      cbv zeta in *. rewrite H2. split; [now right|]. intros _. exact H3.
    + destruct (findCommand registry first) as [c|].
      * destruct (existsb isHelpFlag others); [apply Hplain|apply Hexec].
      * destruct (Hunknown first) as (H1 & H2 & H3).
        cbv zeta in *. rewrite H2. split; [now right|]. intros _. exact H3.
Qed.

Lemma main_exit_code_witness :
  exitCode (main foldedCompare (commands missingPackage)
              (terminalEnvironment [lit "init"]) []) = Some 1
  /\ exists before line,
       events (main foldedCompare (commands missingPackage)
                 (terminalEnvironment [lit "init"]) [])
       = before ++ [ErrLog line].
Proof.
  assert (H : exitCode (main foldedCompare (commands missingPackage)
                          (terminalEnvironment [lit "init"]) []) = Some 1)
    by reflexivity.
  split; [exact H|].
  exact (proj2 (main_exit_code foldedCompare (commands missingPackage)
                  (terminalEnvironment [lit "init"]) []) H).
Defined.

Lemma noPrompting_logs (out : list Event) :
  forallb isLog out = true -> noPrompting out.
Proof.
  intro H. split; [now apply interface_logs|now apply answersOf_logs].
Qed.

Lemma noPrompting_app (a b : list Event) :
  noPrompting a -> noPrompting b -> noPrompting (a ++ b).
Proof.
  intros [A1 A2] [B1 B2]. unfold noPrompting.
  now rewrite filter_app, answersOf_app, A1, A2, B1, B2.
Qed.

Lemma printGeneralHelp_logs (registry : list CommandDefinition) :
  forallb isLog (printGeneralHelp registry) = true.
Proof.
  unfold printGeneralHelp. cbv zeta. cbn [app forallb isLog andb].
  rewrite forallb_app, command_lines_logs. reflexivity.
Qed.

(** X19.  [main] touches the readline interface only when it is called
    without arguments, on a terminal, with a non-empty registry.  In
    every other case it neither creates the interface nor reads a line,
    as long as the commands themselves do not. *)
Theorem main_prompts_only_on_terminal
  (localeCompare : jsstring -> jsstring -> Z)
  (registry : list CommandDefinition) (env : Environment)
  (args : list jsstring) :
  (args <> [] \/ stdinIsTTY env = false \/ stdoutIsTTY env = false
   \/ registry = []) ->
  (forall c a, In c registry -> noPrompting (runEvents (run c a))) ->
  noPrompting (events (main localeCompare registry env args)).
Proof.
  intros Hcase Hrun.
  assert (Herr : forall line, noPrompting [ErrLog line]).
  { intro line. split; reflexivity. }
  assert (Hexec : forall c a,
            In c registry ->
            noPrompting
              (events
                 (match completion (executeCommand c a []) with
                  | Throw error =>
                      mkProcess
                        (events (executeCommand c a [])
                         ++ [ErrLog (errorText error)])
                        (Some 1) Normal
                  | _ => executeCommand c a []
                  end))).
  { intros c a Hc. unfold executeCommand. cbn [app].
    destruct (runThrown (run c a)); simpl; auto using noPrompting_app. }
  assert (Hunknown : forall target,
            noPrompting
              (events (unknownCommand localeCompare registry target))).
  { intro target. unfold unknownCommand. simpl.
    destruct (suggestClosestCommand localeCompare registry target);
      split; reflexivity. }
  assert (Hhelp : noPrompting (printGeneralHelp registry)).
  { apply noPrompting_logs, printGeneralHelp_logs. }
  assert (Hchelp : forall c, noPrompting (printCommandHelp c)).
  { intro c. split; reflexivity. }
  unfold main, mainBody. destruct args as [|first others].
  - destruct (stdinIsTTY env) eqn:Ein; [|exact Hhelp].
    destruct (stdoutIsTTY env) eqn:Eout; [|exact Hhelp].
    destruct Hcase as [H|[H|[H|H]]]; try discriminate; [contradiction|].
    subst registry. split; reflexivity.
  - destruct ((length (first :: others) =? 1)%nat && isVersionFlag first);
      [split; reflexivity|].
    destruct ((length (first :: others) =? 1)%nat && isHelpFlag first);
      [exact Hhelp|].
    destruct (jsstring_eqb first (lit "help")).
    + destruct others as [|[|x t] more]; try exact Hhelp.
      destruct (findCommand registry (x :: t)); [apply Hchelp|].
      apply Hunknown.
    + destruct (findCommand registry first) as [c|] eqn:Ef;
        [|apply Hunknown].
      destruct (existsb isHelpFlag others); [apply Hchelp|].
      apply Hexec. eapply findCommand_In. exact Ef.
Qed.

Lemma main_prompts_only_on_terminal_witness :
  ([lit "init"] <> []
   /\ forall c a, In c (commands missingPackage) ->
                  noPrompting (runEvents (run c a)))
  /\ noPrompting
       (events (main foldedCompare (commands missingPackage)
                  (terminalEnvironment [lit "init"]) [lit "init"])).
Proof.
  assert (H1 : [lit "init"] <> []) by discriminate.
  assert (H2 : forall c a, In c (commands missingPackage) ->
                           noPrompting (runEvents (run c a))).
  { intros c a [<-|[]]. simpl. destruct (0 <? length a)%nat;
      split; reflexivity. }
  split; [auto|].
  exact (main_prompts_only_on_terminal foldedCompare
           (commands missingPackage) (terminalEnvironment [lit "init"])
           [lit "init"] (or_introl H1) H2).
Defined.

(** X20.  What [f init ...] does, for every spelling of [init] and every
    outcome of [handleInit]: with a help flag among the arguments it
    prints the help of [init]; with other arguments it reports them as
    unexpected and sets the exit code to 1; in both cases [handleInit]
    is not consulted.  Without arguments it runs [handleInit] and
    reports its failure, if any. *)
Theorem main_init (localeCompare : jsstring -> jsstring -> Z)
  (handleInit : RunResult) (env : Environment)
  (word : jsstring) (args : list jsstring) :
  toLowerCase word = lit "init" ->
  (existsb isHelpFlag args = true ->
   main localeCompare (commands handleInit) env (word :: args)
   = mkProcess (printCommandHelp (initCommand handleInit)) None Normal)
  /\ (existsb isHelpFlag args = false -> args <> [] ->
      main localeCompare (commands handleInit) env (word :: args)
      = mkProcess
          [ErrLog (lit "Unexpected arguments for init: "
                   ++ join (lit " ") args)]
          (Some 1) Normal)
  /\ (args = [] ->
      main localeCompare (commands handleInit) env (word :: args)
      = reported handleInit).
Proof.
  intro Hword.
  assert (Hnot : forall other,
            toLowerCase other <> lit "init" ->
            jsstring_eqb word other = false).
  { intros other Hother. apply jsstring_eqb_neq. intros ->. contradiction. }
  assert (Hfind : findCommand (commands handleInit) word
                  = Some (initCommand handleInit)).
  { unfold findCommand. rewrite Hword. reflexivity. }
  assert (Hbody : mainBody localeCompare (commands handleInit) env
                    (word :: args)
                  = if existsb isHelpFlag args
                    then mkProcess (printCommandHelp (initCommand handleInit))
                           None Normal
                    else executeCommand (initCommand handleInit) args []).
  { unfold mainBody, isVersionFlag, isHelpFlag.
    rewrite !Hnot by (vm_compute; discriminate).
    cbn [orb]. rewrite !andb_false_r. rewrite Hfind. reflexivity. }
  unfold main. rewrite Hbody. split; [|split].
  - intros ->. reflexivity.
  - intros -> Hne. destruct args as [|a args]; [contradiction|].
    reflexivity.
  - intros ->. unfold reported, executeCommand. simpl.
    destruct (runThrown handleInit); reflexivity.
Qed.

Lemma main_init_witness :
  toLowerCase (lit "INIT") = lit "init"
  /\ main foldedCompare (commands missingPackage) (terminalEnvironment [])
       [lit "INIT"]
     = mkProcess
         [ErrLog (lit "package.json not found in the current directory.")]
         (Some 1) Normal.
Proof.
  split; [reflexivity|].
  exact (proj2 (proj2 (main_init foldedCompare missingPackage
                         (terminalEnvironment []) (lit "INIT") [] eq_refl))
           eq_refl).
Defined.

Lemma nameWidth_bounds (registry : list CommandDefinition) :
  forall start,
    let width :=
      fold_left (fun w c => Nat.max w (length (name c))) registry start in
    (start <= width)%nat
    /\ (forall c, In c registry -> (length (name c) <= width)%nat)
    /\ (width = start
        \/ exists c, In c registry /\ length (name c) = width).
Proof.
  induction registry as [|d ds IH]; intro start; cbv zeta; simpl.
  - split; [lia|]. split; [contradiction|now left].
  - destruct (IH (Nat.max start (length (name d)))) as (H1 & H2 & H3).
    cbv zeta in *. split; [lia|]. split.
    + intros c [<-|Hc]; [lia|auto].
    + destruct H3 as [H3|(c & Hc & E)].
      * destruct (Nat.max_spec start (length (name d))) as [[_ E]|[_ E]].
        -- right. exists d. split; [now left|]. lia.
        -- left. lia.
      * right. exists c. auto.
Qed.

(** X21.  The command list of the general help is aligned: there is one
    width, the length of the longest registered name, to which every
    name is padded with blanks, so that all descriptions start in the
    same column. *)
Theorem printGeneralHelp_aligned (registry : list CommandDefinition) :
  exists width,
    (forall c, In c registry -> (length (name c) <= width)%nat)
    /\ (registry <> [] ->
        exists c, In c registry /\ length (name c) = width)
    /\ forall c,
         In c registry ->
         length (padEnd (name c) width) = width
         /\ In (Log (lit "  " ++ padEnd (name c) width ++ lit "  "
                     ++ description c))
               (printGeneralHelp registry).
Proof.
  destruct (nameWidth_bounds registry 0) as (_ & H2 & H3). cbv zeta in *.
  exists (fold_left (fun w c => Nat.max w (length (name c))) registry 0%nat).
  split; [exact H2|]. split.
  - intro Hne. destruct H3 as [E|H3]; [|exact H3].
    destruct registry as [|d ds]; [contradiction|].
    exists d. split; [now left|].
    pose proof (H2 d (or_introl eq_refl)). lia.
  - intros c Hc. split.
    + unfold padEnd. rewrite length_app, repeat_length.
      pose proof (H2 c Hc). lia.
    + unfold printGeneralHelp. cbv zeta.
      apply in_or_app. right. apply in_or_app. left.
      apply in_map_iff. exists c. auto.
Qed.

Lemma printGeneralHelp_aligned_witness :
  [sampleInit; sampleInstall] <> []
  /\ In (Log (lit "  init     Create manifest"))
        (printGeneralHelp [sampleInit; sampleInstall]).
Proof.
  split; [discriminate|].
  destruct (printGeneralHelp_aligned [sampleInit; sampleInstall])
    as (width & _ & Hmax & Hline).
  destruct (Hmax ltac:(discriminate)) as (c & Hc & Hw).
  destruct (Hline sampleInit (or_introl eq_refl)) as [_ Hin].
  assert (Ew : width = 7%nat).
  { destruct Hc as [<-|[<-|[]]]; simpl in Hw.
    - destruct (Hline sampleInstall (or_intror (or_introl eq_refl)))
        as [Hlen _].
      rewrite <- Hw in Hlen. vm_compute in Hlen. discriminate.
    - symmetry. exact Hw. }
  rewrite Ew in Hin. exact Hin.
Defined.

(** * Properties of [handleInit] *)

Section HandleInitFacts.
Variable FileSystem : Type.
Variable existsSync : FileSystem -> jsstring -> bool.
Variable readFileSync : FileSystem -> jsstring -> Thrown + jsstring.
Variable writeFileSync :
  FileSystem -> jsstring -> jsstring -> FileSystem * option Thrown.
Variable resolve : jsstring -> jsstring -> jsstring.
Variable parseJSON : jsstring -> Thrown + JsonValue.

(** X22.  A failure of [handleInit] is an [Error] with one of its six
    messages, comes with no output, and leaves the file system as it
    was, except when it is the write of [Taskfile.yml] that failed. *)
Theorem handleInit_failure (cwd : jsstring) (fs : FileSystem)
  (error : Thrown) :
  runThrown
    (snd (handleInit FileSystem existsSync readFileSync writeFileSync
            resolve parseJSON cwd fs)) = Some error ->
  exists message,
    error = ErrorObject message
    /\ handleInitMessage message
    /\ runEvents
         (snd (handleInit FileSystem existsSync readFileSync writeFileSync
                 resolve parseJSON cwd fs)) = []
    /\ (fst (handleInit FileSystem existsSync readFileSync writeFileSync
               resolve parseJSON cwd fs) = fs
        \/ ((exists detail,
               message = lit "Failed to write Taskfile.yml: " ++ detail)
            /\ existsSync fs (resolve cwd (lit "Taskfile.yml")) = false
            /\ fst (handleInit FileSystem existsSync readFileSync
                      writeFileSync resolve parseJSON cwd fs)
               = fst (writeFileSync fs (resolve cwd (lit "Taskfile.yml"))
                        taskfileContent))).
Proof.
  unfold handleInit, handleInitMessage, failure. cbv zeta.
  set (package := resolve cwd (lit "package.json")).
  set (taskfile := resolve cwd (lit "Taskfile.yml")).
  destruct (existsSync fs package); cbn [negb fst snd runThrown runEvents].
  - destruct (readFileSync fs package) as [e|text];
      cbn [fst snd runThrown runEvents].
    + intro H. injection H as <-. eexists. split; [reflexivity|].
      split; [right; left; eexists; reflexivity|].
      split; [reflexivity|left; reflexivity].
    + destruct (parseJSON text) as [e|parsed];
        cbn [fst snd runThrown runEvents].
      * intro H. injection H as <-. eexists. split; [reflexivity|].
        split; [right; right; left; eexists; reflexivity|].
        split; [reflexivity|left; reflexivity].
      * destruct (devScriptOf parsed); cbn [fst snd runThrown runEvents].
        -- destruct (existsSync fs taskfile) eqn:Et;
             cbn [fst snd runThrown runEvents].
           ++ intro H. injection H as <-. eexists. split; [reflexivity|].
              split; [right; right; right; right; left; reflexivity|].
              split; [reflexivity|left; reflexivity].
           ++ destruct (writeFileSync fs taskfile taskfileContent)
                as [fs' [e|]]; cbn [fst snd runThrown runEvents];
                [|discriminate].
              intro H. injection H as <-. eexists. split; [reflexivity|].
              split; [repeat right; eexists; reflexivity|].
              split; [reflexivity|]. right.
              split; [eexists; reflexivity|]. split; reflexivity.
        -- intro H. injection H as <-. eexists. split; [reflexivity|].
           split; [right; right; right; left; reflexivity|].
           split; [reflexivity|left; reflexivity].
  - intro H. injection H as <-. eexists. split; [reflexivity|].
    split; [left; reflexivity|].
    split; [reflexivity|left; reflexivity].
Qed.

(** X23.  [handleInit] never overwrites: when [Taskfile.yml] exists, it
    fails and the file system is left as it was. *)
Theorem handleInit_never_overwrites (cwd : jsstring) (fs : FileSystem) :
  existsSync fs (resolve cwd (lit "Taskfile.yml")) = true ->
  fst (handleInit FileSystem existsSync readFileSync writeFileSync
         resolve parseJSON cwd fs) = fs
  /\ runThrown
       (snd (handleInit FileSystem existsSync readFileSync writeFileSync
               resolve parseJSON cwd fs)) <> None.
Proof.
  intro Ht. unfold handleInit, failure. cbv zeta. rewrite Ht.
  set (package := resolve cwd (lit "package.json")).
  destruct (existsSync fs package); cbn [negb fst snd runThrown];
    [|split; [reflexivity|discriminate]].
  destruct (readFileSync fs package) as [e|text]; cbn [fst snd runThrown];
    [split; [reflexivity|discriminate]|].
  destruct (parseJSON text) as [e|parsed]; cbn [fst snd runThrown];
    [split; [reflexivity|discriminate]|].
  destruct (devScriptOf parsed); cbn [fst snd runThrown]; split;
    try reflexivity; discriminate.
Qed.

(** X24.  [handleInit] succeeds exactly when [package.json] exists, can
    be read, parses, holds a dev script that is not blank, no
    [Taskfile.yml] exists and the write goes through.  When it succeeds
    it has written the fixed text to [Taskfile.yml], whatever the dev
    script is, done nothing else to the file system, and printed one
    line. *)
Theorem handleInit_success (cwd : jsstring) (fs : FileSystem) :
  (runThrown
     (snd (handleInit FileSystem existsSync readFileSync writeFileSync
             resolve parseJSON cwd fs)) = None
   <-> existsSync fs (resolve cwd (lit "package.json")) = true
       /\ (exists text parsed script,
             readFileSync fs (resolve cwd (lit "package.json")) = inr text
             /\ parseJSON text = inr parsed
             /\ devScriptOf parsed = Some script)
       /\ existsSync fs (resolve cwd (lit "Taskfile.yml")) = false
       /\ snd (writeFileSync fs (resolve cwd (lit "Taskfile.yml"))
                 taskfileContent) = None)
  /\ (runThrown
        (snd (handleInit FileSystem existsSync readFileSync writeFileSync
                resolve parseJSON cwd fs)) = None ->
      handleInit FileSystem existsSync readFileSync writeFileSync
        resolve parseJSON cwd fs
      = (fst (writeFileSync fs (resolve cwd (lit "Taskfile.yml"))
                taskfileContent),
         mkRunResult
           [Log (lit "Created Taskfile.yml with dev task running bun dev.")]
           None)).
Proof.
  unfold handleInit, failure. cbv zeta.
  set (package := resolve cwd (lit "package.json")).
  set (taskfile := resolve cwd (lit "Taskfile.yml")).
  split; [split|].
  - destruct (existsSync fs package); cbn [negb fst snd runThrown];
      [|discriminate].
    destruct (readFileSync fs package) as [e|text]; cbn [fst snd runThrown];
      [discriminate|].
    destruct (parseJSON text) as [e|parsed] eqn:Ep; cbn [fst snd runThrown];
      [discriminate|].
    destruct (devScriptOf parsed) as [script|] eqn:Ed;
      cbn [fst snd runThrown]; [|discriminate].
    destruct (existsSync fs taskfile); cbn [fst snd runThrown];
      [discriminate|].
    destruct (writeFileSync fs taskfile taskfileContent) as [fs' [e|]];
      cbn [fst snd runThrown]; [discriminate|].
    intros _. split; [reflexivity|].
    split; [exists text, parsed, script; repeat split; assumption|].
    split; reflexivity.
  - intros (Hpackage & (text & parsed & script & Hread & Hparse & Hdev)
            & Htask & Hwrite).
    rewrite Hpackage, Hread, Hparse, Hdev, Htask. cbn [negb].
    destruct (writeFileSync fs taskfile taskfileContent) as [fs' outcome].
    cbn [snd] in Hwrite. subst outcome. reflexivity.
  - destruct (existsSync fs package); cbn [negb fst snd runThrown];
      [|discriminate].
    destruct (readFileSync fs package) as [e|text]; cbn [fst snd runThrown];
      [discriminate|].
    destruct (parseJSON text) as [e|parsed]; cbn [fst snd runThrown];
      [discriminate|].
    destruct (devScriptOf parsed) as [script|];
      cbn [fst snd runThrown]; [|discriminate].
    destruct (existsSync fs taskfile); cbn [fst snd runThrown];
      [discriminate|].
    destruct (writeFileSync fs taskfile taskfileContent) as [fs' [e|]];
      cbn [fst snd runThrown]; [discriminate|].
    reflexivity.
Qed.
End HandleInitFacts.

Lemma handleInit_failure_witness :
  runThrown (snd (sampleHandleInit (lit "/work") [(lit "/work/package.json", lit "{}")]))
  = Some (ErrorObject (lit "No dev script found in package.json."))
  /\ exists message,
       ErrorObject (lit "No dev script found in package.json.")
       = ErrorObject message
       /\ handleInitMessage message.
Proof.
  assert (H : runThrown
                (snd (sampleHandleInit (lit "/work")
                        [(lit "/work/package.json", lit "{}")]))
              = Some (ErrorObject
                        (lit "No dev script found in package.json.")))
    by reflexivity.
  split; [exact H|].
  destruct (handleInit_failure SampleFiles sampleExists sampleRead
              sampleWrite sampleResolve sampleParse (lit "/work")
              [(lit "/work/package.json", lit "{}")] _ H)
    as (message & H1 & H2 & _).
  exists message. auto.
Defined.

Lemma handleInit_never_overwrites_witness :
  sampleExists
    [(lit "/work/Taskfile.yml", lit "mine");
     (lit "/work/package.json", sampleManifest)]
    (sampleResolve (lit "/work") (lit "Taskfile.yml")) = true
  /\ fst (sampleHandleInit (lit "/work")
            [(lit "/work/Taskfile.yml", lit "mine");
             (lit "/work/package.json", sampleManifest)])
     = [(lit "/work/Taskfile.yml", lit "mine");
        (lit "/work/package.json", sampleManifest)].
Proof.
  assert (H : sampleExists
                [(lit "/work/Taskfile.yml", lit "mine");
                 (lit "/work/package.json", sampleManifest)]
                (sampleResolve (lit "/work") (lit "Taskfile.yml")) = true)
    by reflexivity.
  split; [exact H|].
  exact (proj1 (handleInit_never_overwrites SampleFiles sampleExists
                  sampleRead sampleWrite sampleResolve sampleParse
                  (lit "/work") _ H)).
Defined.

Lemma handleInit_success_witness :
  (sampleExists [(lit "/work/package.json", sampleManifest)]
     (sampleResolve (lit "/work") (lit "package.json")) = true
   /\ (exists text parsed script,
         sampleRead [(lit "/work/package.json", sampleManifest)]
           (sampleResolve (lit "/work") (lit "package.json")) = inr text
         /\ sampleParse text = inr parsed
         /\ devScriptOf parsed = Some script)
   /\ sampleExists [(lit "/work/package.json", sampleManifest)]
        (sampleResolve (lit "/work") (lit "Taskfile.yml")) = false
   /\ snd (sampleWrite [(lit "/work/package.json", sampleManifest)]
             (sampleResolve (lit "/work") (lit "Taskfile.yml"))
             taskfileContent) = None)
  /\ sampleHandleInit (lit "/work")
       [(lit "/work/package.json", sampleManifest)]
     = ([(lit "/work/Taskfile.yml", taskfileContent);
         (lit "/work/package.json", sampleManifest)],
        mkRunResult
          [Log (lit "Created Taskfile.yml with dev task running bun dev.")]
          None).
Proof.
  assert (H : sampleExists [(lit "/work/package.json", sampleManifest)]
                (sampleResolve (lit "/work") (lit "package.json")) = true
              /\ (exists text parsed script,
                    sampleRead [(lit "/work/package.json", sampleManifest)]
                      (sampleResolve (lit "/work") (lit "package.json"))
                    = inr text
                    /\ sampleParse text = inr parsed
                    /\ devScriptOf parsed = Some script)
              /\ sampleExists [(lit "/work/package.json", sampleManifest)]
                   (sampleResolve (lit "/work") (lit "Taskfile.yml")) = false
              /\ snd (sampleWrite [(lit "/work/package.json", sampleManifest)]
                        (sampleResolve (lit "/work") (lit "Taskfile.yml"))
                        taskfileContent) = None).
  { split; [reflexivity|]. split; [|split; reflexivity].
    exists sampleManifest,
      (JObject [(lit "scripts",
                 JObject [(lit "dev", JString (lit " vite "))])]),
      (lit "vite").
    repeat split. }
  split; [exact H|].
  destruct (handleInit_success SampleFiles sampleExists sampleRead
              sampleWrite sampleResolve sampleParse (lit "/work")
              [(lit "/work/package.json", sampleManifest)])
    as [Hiff Hresult].
  exact (Hresult (proj2 Hiff H)).
Defined.

Example taskfileContent_text :
  taskfileContent
  = lit "version: " ++ quote ++ lit "3" ++ quote ++ newline
    ++ newline
    ++ lit "tasks:" ++ newline
    ++ lit "  dev:" ++ newline
    ++ lit "    cmds:" ++ newline
    ++ lit "      - bun dev" ++ newline.
Proof. reflexivity. Qed.

(** * Properties of the version script *)

Lemma splitOnAux_length (separator : ascii) (s : jsstring) :
  forall cur,
    length (splitOnAux separator s cur)
    = S (length (filter (fun c => Ascii.eqb c separator) s)).
Proof.
  induction s as [|c s IH]; intro cur; simpl; [reflexivity|].
  destruct (Ascii.eqb c separator); simpl; now rewrite IH.
Qed.

(** X25.  [bump] refuses every version that does not have exactly two
    dots, with the message that quotes the version. *)
Theorem bump_needs_two_dots (version : jsstring) (increment : Increment) :
  dots version <> 2%nat ->
  bump version increment
  = inl (ErrorObject (lit "Invalid semantic version: " ++ version)).
Proof.
  intro H. unfold bump. cbv zeta.
  assert (Hlen : length (map parseInt (splitOn (fromCode 46) version))
                 <> 3%nat).
  { rewrite length_map. unfold splitOn. rewrite splitOnAux_length.
    unfold dots in H. lia. }
  destruct (map parseInt (splitOn (fromCode 46) version))
    as [|[a|] [|[b|] [|[c|] [|d l]]]]; try reflexivity.
  exfalso. apply Hlen. reflexivity.
Qed.

Lemma bump_needs_two_dots_witness :
  dots (lit "1.2") <> 2%nat
  /\ bump (lit "1.2") Minor
     = inl (ErrorObject (lit "Invalid semantic version: 1.2")).
Proof.
  assert (H : dots (lit "1.2") <> 2%nat) by discriminate.
  split; [exact H|].
  exact (bump_needs_two_dots (lit "1.2") Minor H).
Defined.

Lemma splitOnAux_plain (separator : ascii) (word rest : jsstring) :
  Forall (fun c => Ascii.eqb c separator = false) word ->
  forall cur,
    splitOnAux separator (word ++ rest) cur
    = splitOnAux separator rest (rev word ++ cur).
Proof.
  induction 1 as [|c word Hc _ IH]; intro cur; [reflexivity|].
  cbn [app splitOnAux]. rewrite Hc, IH. cbn [rev].
  now rewrite <- app_assoc.
Qed.

Lemma decimal_no_dot (n : nat) :
  Forall (fun c => Ascii.eqb c (fromCode 46) = false) (decimal n).
Proof.
  destruct (to_uint_digits n) as (ch & rest & -> & Hch & Hrest).
  assert (H : forall x, isDigit x = true ->
                        Ascii.eqb x (fromCode 46) = false).
  { intros x Hx. destruct (Ascii.eqb_spec x (fromCode 46)) as [->|];
      [discriminate Hx|reflexivity]. }
  constructor; [now apply H|].
  eapply Forall_impl; [|exact Hrest]. exact H.
Qed.

Lemma splitOn_semver (a b c : nat) :
  splitOn (fromCode 46) (semver a b c) = [decimal a; decimal b; decimal c].
Proof.
  unfold splitOn, semver.
  rewrite (splitOnAux_plain _ (decimal a)) by apply decimal_no_dot.
  cbn [list_ascii_of_string app splitOnAux].
  change (Ascii.eqb "." (fromCode 46)) with true. cbv iota.
  rewrite (splitOnAux_plain _ (decimal b)) by apply decimal_no_dot.
  cbn [list_ascii_of_string app splitOnAux].
  change (Ascii.eqb "." (fromCode 46)) with true. cbv iota.
  rewrite <- (app_nil_r (decimal c)) at 1.
  rewrite (splitOnAux_plain _ (decimal c)) by apply decimal_no_dot.
  cbn [splitOnAux]. now rewrite !app_nil_r, !rev_involutive.
Qed.

Lemma numberToString_nat (n : nat) :
  numberToString (Z.of_nat n) = decimal n.
Proof.
  unfold numberToString.
  destruct (Z.ltb_spec (Z.of_nat n) 0); [lia|]. now rewrite Nat2Z.id.
Qed.

(** X26.  On a version in its usual spelling, with numbers in the range
    where JavaScript numbers are exact, [bump] raises the chosen part
    by one, resets the parts after it to 0 and keeps the parts before
    it; the result is again a version in the usual spelling. *)
Theorem bump_semver (major minor patch : nat) :
  Z.of_nat major < 2 ^ 53 - 1 ->
  Z.of_nat minor < 2 ^ 53 - 1 ->
  Z.of_nat patch < 2 ^ 53 - 1 ->
  bump (semver major minor patch) Major = inr (semver (major + 1) 0 0)
  /\ bump (semver major minor patch) Minor
     = inr (semver major (minor + 1) 0)
  /\ bump (semver major minor patch) Patch
     = inr (semver major minor (patch + 1)).
Proof.
  intros _ _ _. unfold bump. cbv zeta. rewrite splitOn_semver.
  cbn [map]. rewrite !parseInt_decimal.
  replace (Z.of_nat major + 1) with (Z.of_nat (major + 1)) by lia.
  replace (Z.of_nat minor + 1) with (Z.of_nat (minor + 1)) by lia.
  replace (Z.of_nat patch + 1) with (Z.of_nat (patch + 1)) by lia.
  rewrite !numberToString_nat. unfold semver.
  repeat split.
Qed.

Lemma bump_semver_witness :
  (Z.of_nat 0 < 2 ^ 53 - 1 /\ Z.of_nat 1 < 2 ^ 53 - 1
   /\ Z.of_nat 5 < 2 ^ 53 - 1)
  /\ bump (lit "0.1.5") Minor = inr (lit "0.2.0")
  /\ bump (lit "0.1.5") Patch = inr (lit "0.1.6").
Proof.
  assert (H0 : Z.of_nat 0 < 2 ^ 53 - 1) by (vm_compute; reflexivity).
  assert (H1 : Z.of_nat 1 < 2 ^ 53 - 1) by (vm_compute; reflexivity).
  assert (H5 : Z.of_nat 5 < 2 ^ 53 - 1) by (vm_compute; reflexivity).
  split; [auto|].
  destruct (bump_semver 0 1 5 H0 H1 H5) as (_ & Hminor & Hpatch).
  split; [exact Hminor|exact Hpatch].
Defined.
